(** * Plot: gamma-curve plotting on a turtle canvas

    A shallow embedding of [plot.py].  The [Plot] object and the turtle
    screen are threaded explicitly through a state-and-exception monad.
    Python floats are modelled as rationals ([Q]): as exact ones in the
    definitions of the section [Renderer], and with every operation
    rounded to the float format in the module [Rounded], which has the
    functions whose results depend on the rounding.  The turtle module
    and the tkinter font are external capabilities: every turtle call is
    recorded in a log, the screen scale and the font metrics are read
    from the screen record or taken as section parameters. *)

From Stdlib Require Import QArith Qminmax Qround Qpower ZArith String Ascii Lia
  Lqa Bool.
From stdpp Require Import base list.

Local Open Scope Q_scope.
Local Open Scope string_scope.
Local Open Scope list_scope.

(** ** Numbers *)

Definition Qltb (a b : Q) : bool := negb (Qle_bool b a).

(** [-math.inf] and finite numbers, for [last_pos] in [draw_grid]. *)
Inductive ExtQ : Type :=
| NegInf : ExtQ
| Fin (q : Q) : ExtQ.

(** [x < e] for a finite [x]. *)
Definition lt_ext (x : Q) (e : ExtQ) : bool :=
  match e with
  | NegInf => false
  | Fin q => Qltb x q
  end.

(** ** Exceptions and the monad *)

Inductive Exn : Type :=
| PlotClosed
| ZeroDivisionError
| IndexError
| KeyError
| TypeError
| AttributeError
| Terminator
| KeyboardInterrupt.

Inductive Res (S A : Type) : Type :=
| Ok (a : A) (s : S)
| Raise (e : Exn) (s : S).
Arguments Ok {S A} a s.
Arguments Raise {S A} e s.

Definition M (S A : Type) : Type := S -> Res S A.

Definition ret {S A} (a : A) : M S A := fun s => Ok a s.
Definition raise {S A} (e : Exn) : M S A := fun s => Raise e s.
Definition bind {S A B} (m : M S A) (k : A -> M S B) : M S B :=
  fun s => match m s with
           | Ok a s' => k a s'
           | Raise e s' => Raise e s'
           end.
Definition get {S} : M S S := fun s => Ok s s.
Definition modify {S} (f : S -> S) : M S unit := fun s => Ok tt (f s).

Notation "'do' x <- m ; k" := (bind m (fun x => k))
  (at level 10, x name, m at level 100, k at level 200).
Notation "m ;; k" := (bind m (fun _ => k))
  (at level 100, k at level 200, right associativity).

(** [a / b]: Python's true division. *)
Definition pydiv {S} (a b : Q) : M S Q :=
  if Qeq_bool b 0 then raise ZeroDivisionError else ret (a / b).

(** [l[i]] on a list or tuple. *)
Definition idx {S A} (l : list A) (i : nat) : M S A :=
  match l !! i with
  | Some x => ret x
  | None => raise IndexError
  end.

(** [l[i] = x]. *)
Definition upd {S A} (l : list A) (i : nat) (x : A) : M S (list A) :=
  if (i <? length l)%nat then ret (<[i:=x]> l) else raise IndexError.

(** ** The turtle screen *)

Inductive TurtleOp : Type :=
| TSetup
| TPenup
| TPendown
| TColor (c : string)
| TSetposition (x y : Q)
| TWrite (text : string) (align : string) (font : string * Z)
| TTracer (n : Z) (delay : option Z)
| TSpeed (n : Z)
| THideturtle
| TShowturtle
| TClear
| TUpdate
| TScreensize (w h : Z)
| TSetworldcoordinates (llx lly urx ury : Q)
| TOntimer (callback : string) (ms : Z)
| TMainloop
| TBye.

Record Screen : Type := mkScreen {
  xscale : Q;
  yscale : Q;
  window_width : Z;
  window_height : Z;
  oplog : list TurtleOp
}.

(** What a run of turtle calls leaves on the canvas: the texts written
    and the moves made with the pen down, each in the pen colour of the
    moment. *)
Record Pen : Type := mkPen {
  pen_down : bool;
  pen_at : Q * Q;
  pen_color : string
}.

Definition pen0 : Pen := mkPen false (0, 0) "black".

Inductive Mark : Type :=
| Text (at_ : Q * Q) (text : string) (c : string)
| Stroke (from to : Q * Q) (c : string).

Fixpoint marks (pen : Pen) (ops : list TurtleOp) : list Mark :=
  match ops with
  | [] => []
  | TPenup :: rest => marks (mkPen false (pen_at pen) (pen_color pen)) rest
  | TPendown :: rest => marks (mkPen true (pen_at pen) (pen_color pen)) rest
  | TColor c :: rest => marks (mkPen (pen_down pen) (pen_at pen) c) rest
  | TSetposition x y :: rest =>
      (if pen_down pen then [Stroke (pen_at pen) (x, y) (pen_color pen)] else [])
      ++ marks (mkPen (pen_down pen) (x, y) (pen_color pen)) rest
  | TWrite t _ _ :: rest => Text (pen_at pen) t (pen_color pen) :: marks pen rest
  | _ :: rest => marks pen rest
  end.


(** ** Data of the plot *)

(** A grid line: the dict passed in [lines]; absent keys are [None]. *)
Record GridLine : Type := mkLine {
  pos : Q;
  horizontal : option bool;
  label : option string;
  color : option string;
  label_color : option string;
  priority : option Z
}.

(** [del line['label']] (the key is known to be present). *)
Definition drop_label (ln : GridLine) : GridLine :=
  {| pos := pos ln; horizontal := horizontal ln; label := None;
     color := color ln; label_color := label_color ln;
     priority := priority ln |}.

(** A Python value passed as a curve argument: a number or a sequence. *)
#[warnings="-register-all"]
Inductive PyVal : Type :=
| Num (q : Q)
| Seq (l : list PyVal).

Record Kwargs : Type := mkKwargs {
  kw_colors : option (list string);
  kw_scale_x : option Q
}.

Inductive Cmd : Type :=
| CmdClear (lines : list GridLine)
| CmdZoom (level : option Q) (direction : list Q)
| CmdPlot (gamma : list PyVal) (draw_speed : Z) (kw : Kwargs)
| CmdClose.

Definition Cmd_eqb_close (c : Cmd) : bool :=
  match c with CmdClose => true | _ => false end.

Record Plot : Type := mkPlot {
  queue : list Cmd;
  margin : list Q;
  plot_area : list Q;
  min_size : list Q;
  zoom_area : list Q;
  scale : Q;
  font : string * Z;
  closed : bool;
  window_size : option (Z * Z);
  tables : list (list PyVal * Kwargs);
  lines : option (list GridLine)
}.

Record World : Type := mkWorld {
  plot : Plot;
  screen : Screen
}.

(** Field updates ([self.x = v]). *)
Definition set_queue (v : list Cmd) (p : Plot) : Plot :=
  mkPlot v (margin p) (plot_area p) (min_size p) (zoom_area p) (scale p)
         (font p) (closed p) (window_size p) (tables p) (lines p).
Definition set_margin (v : list Q) (p : Plot) : Plot :=
  mkPlot (queue p) v (plot_area p) (min_size p) (zoom_area p) (scale p)
         (font p) (closed p) (window_size p) (tables p) (lines p).
Definition set_zoom_area (v : list Q) (p : Plot) : Plot :=
  mkPlot (queue p) (margin p) (plot_area p) (min_size p) v (scale p)
         (font p) (closed p) (window_size p) (tables p) (lines p).
Definition set_scale (v : Q) (p : Plot) : Plot :=
  mkPlot (queue p) (margin p) (plot_area p) (min_size p) (zoom_area p) v
         (font p) (closed p) (window_size p) (tables p) (lines p).
Definition set_closed (v : bool) (p : Plot) : Plot :=
  mkPlot (queue p) (margin p) (plot_area p) (min_size p) (zoom_area p) (scale p)
         (font p) v (window_size p) (tables p) (lines p).
Definition set_window_size (v : option (Z * Z)) (p : Plot) : Plot :=
  mkPlot (queue p) (margin p) (plot_area p) (min_size p) (zoom_area p) (scale p)
         (font p) (closed p) v (tables p) (lines p).
Definition set_tables (v : list (list PyVal * Kwargs)) (p : Plot) : Plot :=
  mkPlot (queue p) (margin p) (plot_area p) (min_size p) (zoom_area p) (scale p)
         (font p) (closed p) (window_size p) v (lines p).
Definition set_lines (v : option (list GridLine)) (p : Plot) : Plot :=
  mkPlot (queue p) (margin p) (plot_area p) (min_size p) (zoom_area p) (scale p)
         (font p) (closed p) (window_size p) (tables p) v.

Definition on_plot (f : Plot -> Plot) (w : World) : World :=
  mkWorld (f (plot w)) (screen w).

(** Appending turtle calls to the log. *)
Definition emit (ops : list TurtleOp) (w : World) : World :=
  mkWorld (plot w)
          (mkScreen (xscale (screen w)) (yscale (screen w))
                    (window_width (screen w)) (window_height (screen w))
                    (oplog (screen w) ++ ops)).

Definition turtle (op : TurtleOp) : M World unit := modify (emit [op]).

(** Python's [max(a, b)] and truthiness of an optional string. *)
Definition pymax (a b : Q) : Q := if Qltb a b then b else a.

Definition truthy (l : option string) : bool :=
  match l with
  | Some (String _ _) => true
  | _ => false
  end.

(** [Plot.__init__]. *)
Definition fresh : Plot :=
  {| queue := [];
     margin := [0; 0; 0; 0];
     plot_area := [0; 0; 1023; 1023];
     min_size := [2; 8];
     zoom_area := [0; 0; 1023; 1023];
     scale := 1;
     font := ("Ariel", 8%Z);
     closed := false;
     window_size := None;
     tables := [];
     lines := None |}.

Definition init (s : Screen) : World := emit [TSetup] (mkWorld fresh s).

(** [clamp(v, lo, hi)], as the zoom contract words it. *)
Definition clamp (v lo hi : Q) : Q := Qmin (Qmax v lo) hi.

(** ** Strings *)

Definition newline : ascii := "010"%char.

(** [s.split('\n')]. *)
Fixpoint split_nl (s : string) : list string :=
  match s with
  | EmptyString => [EmptyString]
  | String c r =>
      if Ascii.eqb c newline then EmptyString :: split_nl r
      else match split_nl r with
           | x :: xs => String c x :: xs
           | [] => [String c EmptyString]
           end
  end.

(** [s.count('\n')]. *)
Fixpoint count_nl (s : string) : Z :=
  match s with
  | EmptyString => 0%Z
  | String c r => ((if Ascii.eqb c newline then 1 else 0) + count_nl r)%Z
  end.

(** [tuple[h]] for a pair and a boolean index. *)
Definition sel {A} (h : bool) (p : A * A) : A := if h then snd p else fst p.

(** [tuple[h] = x] on a two-element list kept as a pair. *)
Definition put {A} (h : bool) (x : A) (p : A * A) : A * A :=
  if h then (fst p, x) else (x, snd p).

(** A labelled line at 2000, outside the plot area, and a curve of two
    samples. *)
Definition far_line : GridLine := mkLine 2000 None (Some "far") None None None.

Definition two_samples : list Q := [1; 2].


(** ** Parts of [draw_grid] without arithmetic *)

(** [lines.sort(key=lambda x: x['pos'])]: a stable sort. *)
Fixpoint insert_line (x : GridLine) (l : list GridLine) : list GridLine :=
  match l with
  | [] => [x]
  | y :: r => if Qle_bool (pos x) (pos y) then x :: y :: r
              else y :: insert_line x r
  end.

Definition sort_lines (l : list GridLine) : list GridLine :=
  foldr insert_line [] l.

(** The pen strokes of the frame at the start of [draw_grid]. *)
Definition grid_frame : list TurtleOp :=
  [TTracer 0 None; THideturtle; TSpeed 0; TPenup; TColor "gray75";
   TSetposition 0 0; TPendown; TSetposition 1023 0; TSetposition 1023 1023;
   TSetposition 0 1023; TSetposition 0 0; TPenup; TColor "gray90"].

(** [for i, p in enumerate(margin)]: store the changed components. *)
Fixpoint store_margin (i : nat) (m : list Q) (resize : bool) : M World bool :=
  match m with
  | [] => ret resize
  | p :: rest =>
      do w <- get;
      do cur <- idx (margin (plot w)) i;
      do resize <- (if negb (Qeq_bool p cur) && (i <? 2)%nat
                    then do m' <- upd (margin (plot w)) i p;
                         modify (on_plot (set_margin m')) ;; ret true
                    else ret resize);
      do w <- get;
      do cur <- idx (margin (plot w)) i;
      do resize <- (if negb (Qeq_bool p cur) && (2 <=? i)%nat
                    then do m' <- upd (margin (plot w)) i p;
                         modify (on_plot (set_margin m')) ;; ret true
                    else ret resize);
      store_margin (S i) rest resize
  end.

(** The state of the second loop over [lines]: the list of (copied)
    line dicts, and [last], which refers to lines of that list by
    index, with [last_pos]. *)
Record Overlap : Type := mkOverlap {
  ov_lines : list GridLine;
  ov_last : option nat * option nat;
  ov_last_pos : ExtQ * ExtQ
}.

Definition prio (ln : GridLine) : Z := default 0%Z (priority ln).

(** [del d['label']] on the line at index [i]. *)
Definition del_label (i : nat) (ls : list GridLine) : M World (list GridLine) :=
  do ln <- idx ls i;
  match label ln with
  | None => raise KeyError
  | Some _ => ret (<[i := drop_label ln]> ls)
  end.

(** ** Floating point

    In the section [Renderer] below a Python float is an exact rational.
    What the program computes is the float nearest to each exact result;
    the module [Rounded] has the functions whose result depends on that,
    zooming and the grid.  Every arithmetic operation of the source is
    followed by [rnd], the rounding of the float format, and a decimal
    literal is rounded in the same way.  Comparisons are exact, negation
    is exact, and a division by zero raises as before.  The values stay
    rationals, which every finite float is, and the integers of the
    program, small ones, are among them; overflow is not modelled.
    With the identity for [rnd] these are the definitions on exact
    rationals. *)

Module Rounded.
Section Arithmetic.

Variable rnd : Q -> Q.
Variable measure : string * Z -> string -> Z.
Variable linespace : string * Z -> Z.
Variable rescale : Z -> Z -> Q -> Q -> Q -> Q -> Q * Q.

(** [a / b]. *)
Definition pydiv {S} (a b : Q) : M S Q :=
  if Qeq_bool b 0 then raise ZeroDivisionError else ret (rnd (a / b)).

(** [turtle.setworldcoordinates(llx, lly, urx, ury)]. *)
Definition turtle_setworldcoordinates (llx lly urx ury : Q) : M World unit :=
  modify (fun w =>
    let s := screen w in
    let sc := rescale (window_width s) (window_height s) llx lly urx ury in
    mkWorld (plot w)
            (mkScreen (fst sc) (snd sc) (window_width s) (window_height s)
                      (oplog s ++ [TSetworldcoordinates llx lly urx ury]))).

(** [Plot.setworldcoordinates]. *)
Definition setworldcoordinates : M World unit :=
  modify (fun w => on_plot (set_window_size
            (Some (window_width (screen w), window_height (screen w)))) w) ;;
  turtle (TScreensize 1 1) ;;
  turtle TUpdate ;;
  do w <- get;
  match zip_with (fun a b => rnd (a + rnd (b * scale (plot w))))
                 (zoom_area (plot w)) (margin (plot w)) with
  | [llx; lly; urx; ury] => turtle_setworldcoordinates llx lly urx ury
  | _ => raise TypeError
  end.

(** One round of the [for i in range(2)] loop of [do_zoom]. *)
Definition zoom_axis (level : Q) (direction : list Q) (i : nat) : M World unit :=
  do w <- get;
  do l <- idx (zoom_area (plot w)) i;
  do h <- idx (zoom_area (plot w)) (i + 2);
  do di <- idx direction i;
  let d := rnd (rnd (di / 2) + rnd (1 # 2)) in
  do min_l <- idx (plot_area (plot w)) i;
  do max_h <- idx (plot_area (plot w)) (i + 2);
  let max_size := rnd (max_h - min_l) in
  let size := rnd (h - l) in
  do new_size <- pydiv size level;
  do ms <- idx (min_size (plot w)) i;
  let new_size := if Qltb new_size ms then ms else new_size in
  let new_size := if Qltb max_size new_size then max_size else new_size in
  let new_l := pymax min_l (rnd (l + rnd (rnd (size - new_size) * d))) in
  let new_h := rnd (new_l + new_size) in
  let lh := if Qltb max_h new_h then (rnd (max_h - new_size), max_h)
            else (new_l, new_h) in
  do z <- upd (zoom_area (plot w)) i (fst lh);
  do z <- upd z (i + 2) (snd lh);
  modify (on_plot (set_zoom_area z)) ;;
  do sc <- pydiv new_size max_size;
  modify (on_plot (set_scale sc)).

(** [Plot.do_zoom]. *)
Definition do_zoom (level : option Q) (direction : list Q) : M World unit :=
  modify (on_plot (set_scale 1)) ;;
  match level with
  | None => modify (fun w => on_plot (set_zoom_area (plot_area (plot w))) w)
  | Some lv => zoom_axis lv direction 0 ;; zoom_axis lv direction 1
  end ;;
  setworldcoordinates.

(** [Plot.label_size]: the width and the number of lines are integers,
    [linespace * lines] is their product, and each is divided by a
    float. *)
Definition label_size (lbl : string) : M World (Q * Q) :=
  do w <- get;
  let f := font (plot w) in
  let wl := fold_left (fun (acc : Z * Z) line =>
                         (Z.max (fst acc) (measure f line), (snd acc + 1)%Z))
                      (split_nl lbl) (0%Z, 0%Z) in
  do sx <- pydiv (inject_Z (fst wl)) (xscale (screen w));
  do sy <- pydiv (inject_Z (linespace f * snd wl)) (yscale (screen w));
  ret (sx, sy).

(** [Plot.label_pos]. *)
Definition label_pos (p : Q) (lbl : string) (h : bool) : M World (Q * Q) :=
  do w <- get;
  let xs := xscale (screen w) in
  let ys := yscale (screen w) in
  do line_height <- pydiv (inject_Z (linespace (font (plot w)))) ys;
  let height := rnd (inject_Z (count_nl lbl + 1) * line_height) in
  do x <- (if h then pydiv (-8) xs else ret p);
  do y <- (if h then ret (rnd (p - rnd (rnd (1 # 2) * height)))
           else do t <- pydiv 6 ys; ret (rnd (- height - t)));
  ret (x, y).

(** [Plot.draw_line]. *)
Definition draw_line (ln : GridLine) : M World unit :=
  let p := pos ln in
  let h := default false (horizontal ln) in
  do w <- get;
  do zl <- idx (zoom_area (plot w)) (0 + Nat.b2n h);
  if Qltb p zl then ret tt else
  do zh <- idx (zoom_area (plot w)) (2 + Nat.b2n h);
  if Qltb zh p then ret tt else
  turtle TPenup ;;
  let xs := xscale (screen w) in
  let ys := yscale (screen w) in
  (if truthy (label ln) then
     let lbl := default "" (label ln) in
     turtle (TColor (default "gray35" (label_color ln))) ;;
     do lp <- label_pos p lbl h;
     turtle (TSetposition (fst lp) (snd lp)) ;;
     turtle (TWrite lbl (if h then "right" else "center") (font (plot w))) ;;
     do x <- (if h then pydiv (-4) xs else ret p);
     do y <- (if h then ret p else pydiv (-4) ys);
     turtle (TSetposition x y) ;;
     turtle TPendown
   else ret tt) ;;
  do x <- (if h then pydiv 1 xs else ret p);
  do y <- (if h then ret p else pydiv 1 ys);
  turtle (TSetposition x y) ;;
  turtle (TColor (default "gray90" (color ln))) ;;
  turtle TPendown ;;
  do x <- (if h then idx (plot_area (plot w)) 2 else ret p);
  do y <- (if h then ret p else idx (plot_area (plot w)) 3);
  turtle (TSetposition x y) ;;
  turtle TPenup.

(** One round of [for i, p in enumerate(label_pos)] in [draw_grid]. *)
Definition margin_axis (pad msc size : Q * Q) (i : bool) (p : Q)
    (m : list Q) : M World (list Q) :=
  let pl := rnd (rnd (p - sel i pad) * sel i msc) in
  do mi <- idx m (Nat.b2n i);
  do m <- (if Qltb pl mi then upd m (Nat.b2n i) pl else ret m);
  do w <- get;
  do pa <- idx (plot_area (plot w)) (Nat.b2n i + 2);
  let ph := rnd (rnd (rnd (rnd (p + sel i size) - pa) + sel i pad) * sel i msc) in
  do mi2 <- idx m (Nat.b2n i + 2);
  if Qltb mi2 ph then upd m (Nat.b2n i + 2) ph else ret m.

(** The body of the first loop over [lines] in [draw_grid]. *)
Definition margin_line (pad msc : Q * Q) (ln : GridLine) (m : list Q)
    : M World (GridLine * list Q) :=
  if negb (truthy (label ln)) then ret (ln, m) else
  let lbl := default "" (label ln) in
  let h := default false (horizontal ln) in
  let p := pos ln in
  do w <- get;
  do zl <- idx (zoom_area (plot w)) (0 + Nat.b2n h);
  if Qltb p zl then ret (drop_label ln, m) else
  do zh <- idx (zoom_area (plot w)) (2 + Nat.b2n h);
  if Qltb zh p then ret (drop_label ln, m) else
  do size <- label_size lbl;
  do lp <- label_pos p lbl h;
  let lp := (rnd (fst lp - rnd (fst size / (if h then 1 else 2))), snd lp) in
  do m <- margin_axis pad msc size false (fst lp) m;
  do m <- margin_axis pad msc size true (snd lp) m;
  ret (ln, m).

Fixpoint margin_pass (pad msc : Q * Q) (ls : list GridLine) (m : list Q)
    : M World (list GridLine * list Q) :=
  match ls with
  | [] => ret ([], m)
  | ln :: rest =>
      do r <- margin_line pad msc ln m;
      do r' <- margin_pass pad msc rest (snd r);
      ret (fst r :: fst r', snd r')
  end.

(** [pad = size[h] * 0.6]. *)
Definition label_pad (h : bool) (size : Q * Q) : Q :=
  rnd (sel h size * rnd (6 # 10)).

(** The body of the second loop, for the line at index [i]. *)
Definition overlap_line (i : nat) (st : Overlap) : M World Overlap :=
  do ln <- idx (ov_lines st) i;
  if negb (truthy (label ln)) then ret st else
  let lbl := default "" (label ln) in
  let h := default false (horizontal ln) in
  let p := pos ln in
  do size <- label_size lbl;
  let pad := label_pad h size in
  let keep := fun ls => ret (mkOverlap ls (put h (Some i) (ov_last st))
                                       (put h (Fin (rnd (p + pad))) (ov_last_pos st))) in
  if lt_ext (rnd (p - pad)) (sel h (ov_last_pos st)) then
    match sel h (ov_last st) with
    | None => raise AttributeError
    | Some j =>
        do lastln <- idx (ov_lines st) j;
        if (prio ln <=? prio lastln)%Z then
          do ls <- del_label i (ov_lines st);
          ret (mkOverlap ls (ov_last st) (ov_last_pos st))
        else
          do ls <- del_label j (ov_lines st);
          keep ls
    end
  else keep (ov_lines st).

Fixpoint overlap_from (n i : nat) (st : Overlap) : M World Overlap :=
  match n with
  | O => ret st
  | S n' => do st' <- overlap_line i st; overlap_from n' (S i) st'
  end.

Definition overlap_pass (ls : list GridLine) : M World (list GridLine) :=
  do st <- overlap_from (length ls) 0
                        (mkOverlap ls (None, None) (NegInf, NegInf));
  ret (ov_lines st).

Fixpoint draw_lines (ls : list GridLine) : M World unit :=
  match ls with
  | [] => ret tt
  | ln :: rest => draw_line ln ;; draw_lines rest
  end.

(** [Plot.draw_grid] from the copy of [self.lines] to the stored margin:
    the lines as the first loop leaves them. *)
Definition grid_margin (ls0 : list GridLine) : M World (list GridLine) :=
  let ls := sort_lines ls0 in
  do w <- get;
  do px <- pydiv 4 (xscale (screen w));
  do py <- pydiv 4 (yscale (screen w));
  do ms <- pydiv 1 (scale (plot w));
  do ms' <- pydiv 1 (scale (plot w));
  let pad := (px, py) in
  let msc := (ms, ms') in
  let m := [rnd (rnd (-1 * px) * ms); rnd (rnd (-1 * py) * ms');
            rnd (rnd (1 * px) * ms); rnd (rnd (1 * py) * ms')] in
  do r <- margin_pass pad msc ls m;
  do resize <- store_margin 0 (snd r) false;
  (if resize : bool then setworldcoordinates else ret tt) ;;
  ret (fst r).

(** [Plot.draw_grid]. *)
Definition draw_grid : M World unit :=
  modify (emit grid_frame) ;;
  do w <- get;
  match lines (plot w) with
  | None => raise AttributeError
  | Some ls0 =>
      do ls <- grid_margin ls0;
      do ls <- overlap_pass ls;
      draw_lines ls ;;
      turtle TUpdate
  end.

End Arithmetic.
End Rounded.

(** ** Binary64 *)

(** [2^k]. *)
Definition pow2 (k : Z) : Q := 2 ^ k.

(** The [e] with [2^e <= a < 2^(e+1)], for a positive [a]. *)
Definition ilog2 (a : Q) : Z :=
  let e := (Z.log2 (Qnum a) - Z.log2 (Zpos (Qden a)))%Z in
  if Qle_bool (pow2 e) a then e else (e - 1)%Z.

(** The nearest integer, the even one of two that are equally near. *)
Definition rne (x : Q) : Z :=
  let f := Qfloor x in
  match Qcompare (x - inject_Z f) (1 # 2) with
  | Lt => f
  | Gt => (f + 1)%Z
  | Eq => if Z.even f then f else (f + 1)%Z
  end.

(** The binary64 nearest to a positive [a]: 53 significant bits, the
    last one no finer than [2^-1074]. *)
Definition round64_pos (a : Q) : Q :=
  let k := Z.max (ilog2 a - 52) (-1074) in
  inject_Z (rne (a / pow2 k)) * pow2 k.

(** IEEE 754 round-to-nearest-even on binary64, the arithmetic of a
    Python float. *)
Definition round64 (q : Q) : Q :=
  match Qcompare q 0 with
  | Eq => 0
  | Gt => round64_pos q
  | Lt => - round64_pos (- q)
  end.

(** [turtle]'s scale in binary64, for a canvas that is the window less
    20 pixels: pixels over the extent of the world coordinates.  A scale
    of 0, which [turtle] never has, is replaced by 1. *)
Definition canvas_scale (pixels : Z) (span : Q) : Q :=
  let r := round64 (inject_Z pixels / span) in
  if Qeq_bool r 0 then 1 else r.

Definition canvas_rescale (ww wh : Z) (llx lly urx ury : Q) : Q * Q :=
  (canvas_scale (ww - 20) (round64 (urx - llx)),
   canvas_scale (wh - 20) (round64 (ury - lly))).


(** ** Data for the examples *)

(** A screen of 640 by 480 pixels at scale 1, and a command, for the
    examples. *)
Definition demo_screen : Screen := mkScreen 1 1 640 480 [].

Definition demo_cmd : Cmd := CmdZoom (Some 2) [0; 0].

(** Font metrics and a screen scale for the examples: 7 pixels a
    character, lines of 15 pixels, and turtle's scale of a canvas that
    is the window less 20 pixels. *)
Definition demo_measure (f : string * Z) (s : string) : Z :=
  (7 * Z.of_nat (String.length s))%Z.

Definition demo_linespace (f : string * Z) : Z := 15%Z.

Definition demo_rescale (ww wh : Z) (llx lly urx ury : Q) : Q * Q :=
  (inject_Z (ww - 20) / (urx - llx), inject_Z (wh - 20) / (ury - lly)).

Definition demo_mainloop : M World unit := ret tt.

(** Labelled lines at 127 and 128, and the two lines of the second
    [clear] of [Test.run]. *)
Definition line127 : GridLine := mkLine 127 None (Some "127") None None None.
Definition line128 : GridLine := mkLine 128 None (Some "128") None None None.

Definition green_line : GridLine :=
  mkLine 128 None (Some (String.append "Green line" (String newline "label")))
         (Some "green") None None.


(** An instance after [run] has ended. *)
Definition closed_world : World :=
  on_plot (set_closed true) (init demo_screen).



Section Renderer.

(** The rounding of the float format, for what is stated of the module
    [Rounded]. *)
Variable rnd : Q -> Q.

(** Font metrics ([Font.measure], [Font.metrics('linespace')]) and the
    scale turtle derives from the window size and the world coordinates
    are the toolkit's. *)
Variable measure : string * Z -> string -> Z.
Variable linespace : string * Z -> Z.
Variable rescale : Z -> Z -> Q -> Q -> Q -> Q -> Q * Q.

(** [turtle.setworldcoordinates(llx, lly, urx, ury)]. *)
Definition turtle_setworldcoordinates (llx lly urx ury : Q) : M World unit :=
  modify (fun w =>
    let s := screen w in
    let sc := rescale (window_width s) (window_height s) llx lly urx ury in
    mkWorld (plot w)
            (mkScreen (fst sc) (snd sc) (window_width s) (window_height s)
                      (oplog s ++ [TSetworldcoordinates llx lly urx ury]))).

(** [Plot.setworldcoordinates]. *)
Definition setworldcoordinates : M World unit :=
  modify (fun w => on_plot (set_window_size
            (Some (window_width (screen w), window_height (screen w)))) w) ;;
  turtle (TScreensize 1 1) ;;
  turtle TUpdate ;;
  do w <- get;
  match zip_with (fun a b => a + b * scale (plot w))
                 (zoom_area (plot w)) (margin (plot w)) with
  | [llx; lly; urx; ury] => turtle_setworldcoordinates llx lly urx ury
  | _ => raise TypeError
  end.

(** One round of the [for i in range(2)] loop of [do_zoom]. *)
Definition zoom_axis (level : Q) (direction : list Q) (i : nat) : M World unit :=
  do w <- get;
  do l <- idx (zoom_area (plot w)) i;
  do h <- idx (zoom_area (plot w)) (i + 2);
  do di <- idx direction i;
  let d := di / 2 + (1 # 2) in
  do min_l <- idx (plot_area (plot w)) i;
  do max_h <- idx (plot_area (plot w)) (i + 2);
  let max_size := max_h - min_l in
  let size := h - l in
  do new_size <- pydiv size level;
  do ms <- idx (min_size (plot w)) i;
  let new_size := if Qltb new_size ms then ms else new_size in
  let new_size := if Qltb max_size new_size then max_size else new_size in
  let new_l := pymax min_l (l + (size - new_size) * d) in
  let new_h := new_l + new_size in
  let lh := if Qltb max_h new_h then (max_h - new_size, max_h)
            else (new_l, new_h) in
  do z <- upd (zoom_area (plot w)) i (fst lh);
  do z <- upd z (i + 2) (snd lh);
  modify (on_plot (set_zoom_area z)) ;;
  do sc <- pydiv new_size max_size;
  modify (on_plot (set_scale sc)).

(** [Plot.do_zoom]. *)
Definition do_zoom (level : option Q) (direction : list Q) : M World unit :=
  modify (on_plot (set_scale 1)) ;;
  match level with
  | None => modify (fun w => on_plot (set_zoom_area (plot_area (plot w))) w)
  | Some lv => zoom_axis lv direction 0 ;; zoom_axis lv direction 1
  end ;;
  setworldcoordinates.

(** [Plot.label_size]. *)
Definition label_size (lbl : string) : M World (Q * Q) :=
  do w <- get;
  let f := font (plot w) in
  let wl := fold_left (fun (acc : Z * Z) line =>
                         (Z.max (fst acc) (measure f line), (snd acc + 1)%Z))
                      (split_nl lbl) (0%Z, 0%Z) in
  do sx <- pydiv (inject_Z (fst wl)) (xscale (screen w));
  do sy <- pydiv (inject_Z (linespace f * snd wl)) (yscale (screen w));
  ret (sx, sy).

(** [Plot.label_pos]. *)
Definition label_pos (p : Q) (lbl : string) (h : bool) : M World (Q * Q) :=
  do w <- get;
  let xs := xscale (screen w) in
  let ys := yscale (screen w) in
  do line_height <- pydiv (inject_Z (linespace (font (plot w)))) ys;
  let height := inject_Z (count_nl lbl + 1) * line_height in
  do x <- (if h then pydiv (-8) xs else ret p);
  do y <- (if h then ret (p - (1 # 2) * height)
           else do t <- pydiv 6 ys; ret (- height - t));
  ret (x, y).

(** [Plot.draw_line], called with the keys of a grid line as keyword
    arguments. *)
Definition draw_line (ln : GridLine) : M World unit :=
  let p := pos ln in
  let h := default false (horizontal ln) in
  do w <- get;
  do zl <- idx (zoom_area (plot w)) (0 + Nat.b2n h);
  if Qltb p zl then ret tt else
  do zh <- idx (zoom_area (plot w)) (2 + Nat.b2n h);
  if Qltb zh p then ret tt else
  turtle TPenup ;;
  let xs := xscale (screen w) in
  let ys := yscale (screen w) in
  (if truthy (label ln) then
     let lbl := default "" (label ln) in
     turtle (TColor (default "gray35" (label_color ln))) ;;
     do lp <- label_pos p lbl h;
     turtle (TSetposition (fst lp) (snd lp)) ;;
     turtle (TWrite lbl (if h then "right" else "center") (font (plot w))) ;;
     do x <- (if h then pydiv (-4) xs else ret p);
     do y <- (if h then ret p else pydiv (-4) ys);
     turtle (TSetposition x y) ;;
     turtle TPendown
   else ret tt) ;;
  do x <- (if h then pydiv 1 xs else ret p);
  do y <- (if h then ret p else pydiv 1 ys);
  turtle (TSetposition x y) ;;
  turtle (TColor (default "gray90" (color ln))) ;;
  turtle TPendown ;;
  do x <- (if h then idx (plot_area (plot w)) 2 else ret p);
  do y <- (if h then ret p else idx (plot_area (plot w)) 3);
  turtle (TSetposition x y) ;;
  turtle TPenup.

(** One round of [for i, p in enumerate(label_pos)] in [draw_grid]. *)
Definition margin_axis (pad msc size : Q * Q) (i : bool) (p : Q)
    (m : list Q) : M World (list Q) :=
  let pl := (p - sel i pad) * sel i msc in
  do mi <- idx m (Nat.b2n i);
  do m <- (if Qltb pl mi then upd m (Nat.b2n i) pl else ret m);
  do w <- get;
  do pa <- idx (plot_area (plot w)) (Nat.b2n i + 2);
  let ph := (p + sel i size - pa + sel i pad) * sel i msc in
  do mi2 <- idx m (Nat.b2n i + 2);
  if Qltb mi2 ph then upd m (Nat.b2n i + 2) ph else ret m.

(** The body of the first loop over [lines] in [draw_grid]: the line as
    it is left by the round, and the local [margin]. *)
Definition margin_line (pad msc : Q * Q) (ln : GridLine) (m : list Q)
    : M World (GridLine * list Q) :=
  if negb (truthy (label ln)) then ret (ln, m) else
  let lbl := default "" (label ln) in
  let h := default false (horizontal ln) in
  let p := pos ln in
  do w <- get;
  do zl <- idx (zoom_area (plot w)) (0 + Nat.b2n h);
  if Qltb p zl then ret (drop_label ln, m) else
  do zh <- idx (zoom_area (plot w)) (2 + Nat.b2n h);
  if Qltb zh p then ret (drop_label ln, m) else
  do size <- label_size lbl;
  do lp <- label_pos p lbl h;
  let lp := (fst lp - fst size / (if h then 1 else 2), snd lp) in
  do m <- margin_axis pad msc size false (fst lp) m;
  do m <- margin_axis pad msc size true (snd lp) m;
  ret (ln, m).

Fixpoint margin_pass (pad msc : Q * Q) (ls : list GridLine) (m : list Q)
    : M World (list GridLine * list Q) :=
  match ls with
  | [] => ret ([], m)
  | ln :: rest =>
      do r <- margin_line pad msc ln m;
      do r' <- margin_pass pad msc rest (snd r);
      ret (fst r :: fst r', snd r')
  end.

(** The body of the second loop, for the line at index [i]. *)
Definition overlap_line (i : nat) (st : Overlap) : M World Overlap :=
  do ln <- idx (ov_lines st) i;
  if negb (truthy (label ln)) then ret st else
  let lbl := default "" (label ln) in
  let h := default false (horizontal ln) in
  let p := pos ln in
  do size <- label_size lbl;
  let pad := sel h size * (6 # 10) in
  let keep := fun ls => ret (mkOverlap ls (put h (Some i) (ov_last st))
                                       (put h (Fin (p + pad)) (ov_last_pos st))) in
  if lt_ext (p - pad) (sel h (ov_last_pos st)) then
    match sel h (ov_last st) with
    | None => raise AttributeError
    | Some j =>
        do lastln <- idx (ov_lines st) j;
        if (prio ln <=? prio lastln)%Z then
          do ls <- del_label i (ov_lines st);
          ret (mkOverlap ls (ov_last st) (ov_last_pos st))
        else
          do ls <- del_label j (ov_lines st);
          keep ls
    end
  else keep (ov_lines st).

Fixpoint overlap_from (n i : nat) (st : Overlap) : M World Overlap :=
  match n with
  | O => ret st
  | S n' => do st' <- overlap_line i st; overlap_from n' (S i) st'
  end.

Definition overlap_pass (ls : list GridLine) : M World (list GridLine) :=
  do st <- overlap_from (length ls) 0
                        (mkOverlap ls (None, None) (NegInf, NegInf));
  ret (ov_lines st).

Fixpoint draw_lines (ls : list GridLine) : M World unit :=
  match ls with
  | [] => ret tt
  | ln :: rest => draw_line ln ;; draw_lines rest
  end.

(** [Plot.draw_grid] from the copy of [self.lines] on. *)
Definition draw_grid_lines (ls0 : list GridLine) : M World unit :=
  let ls := sort_lines ls0 in
  do w <- get;
  do px <- pydiv 4 (xscale (screen w));
  do py <- pydiv 4 (yscale (screen w));
  do ms <- pydiv 1 (scale (plot w));
  do ms' <- pydiv 1 (scale (plot w));
  let pad := (px, py) in
  let msc := (ms, ms') in
  let m := [-1 * px * ms; -1 * py * ms'; 1 * px * ms; 1 * py * ms'] in
  do r <- margin_pass pad msc ls m;
  do resize <- store_margin 0 (snd r) false;
  (if resize : bool then setworldcoordinates else ret tt) ;;
  do ls <- overlap_pass (fst r);
  draw_lines ls ;;
  turtle TUpdate.

(** [Plot.draw_grid]. *)
Definition draw_grid : M World unit :=
  modify (emit grid_frame) ;;
  do w <- get;
  match lines (plot w) with
  | None => raise AttributeError
  | Some ls0 => draw_grid_lines ls0
  end.

(** ** Plotting curves *)

(** [a == b] on numbers and sequences. *)
Fixpoint pyeq (a b : PyVal) : bool :=
  match a, b with
  | Num x, Num y => Qeq_bool x y
  | Seq l, Seq m =>
      (fix go (l m : list PyVal) : bool :=
         match l, m with
         | [], [] => true
         | x :: l', y :: m' => pyeq x y && go l' m'
         | _, _ => false
         end) l m
  | _, _ => false
  end.

(** [len(v)] and iteration over [v]: a number has neither. *)
Definition pyseq (v : PyVal) : M World (list PyVal) :=
  match v with
  | Seq l => ret l
  | Num _ => raise TypeError
  end.

Definition pylen (v : PyVal) : M World nat :=
  do l <- pyseq v; ret (length l).

(** [if len(gamma) == 1 and len(gamma[0]) == 3: gamma = gamma[0]]. *)
Definition unpack_grouped (gamma : list PyVal) : M World (list PyVal) :=
  if (length gamma =? 1)%nat then
    do g0 <- idx gamma 0;
    do n <- pylen g0;
    if (n =? 3)%nat then pyseq g0 else ret gamma
  else ret gamma.

(** [if all(x == gamma[0] for x in gamma): gamma = gamma[:1]]. *)
Definition collapse_identical (gamma : list PyVal) : list PyVal :=
  match gamma with
  | [] => []
  | g0 :: _ => if forallb (fun x => pyeq x g0) gamma then [g0] else gamma
  end.

(** [for x, y in enumerate(points_y)], from index [x] on. *)
Fixpoint plot_points (draw_speed : Z) (scale_x : Q) (x : nat)
    (pts : list PyVal) : M World unit :=
  match pts with
  | [] => ret tt
  | y :: rest =>
      do trace <- (if (x =? 0)%nat then ret false
                   else if (draw_speed =? 0)%Z then raise ZeroDivisionError
                   else ret (Z.of_nat x mod draw_speed =? 0)%Z);
      (if trace : bool then turtle (TTracer 1 None) else ret tt) ;;
      match y with
      | Num yq => turtle (TSetposition (inject_Z (Z.of_nat x) * scale_x) yq)
      | Seq _ => raise TypeError
      end ;;
      (if trace then turtle (TTracer 0 None) else ret tt) ;;
      (if (x =? 0)%nat then turtle TShowturtle ;; turtle TPendown else ret tt) ;;
      plot_points draw_speed scale_x (S x) rest
  end.

(** [for color, points_y in enumerate(gamma)], from index [ci] on;
    [n] is [len(gamma)]. *)
Fixpoint plot_curves (n : nat) (colors : list string) (draw_speed : Z)
    (scale_x : Q) (ci : nat) (gs : list PyVal) : M World unit :=
  match gs with
  | [] => ret tt
  | points_y :: rest =>
      (if (n =? length colors)%nat then
         do c <- idx colors ci; turtle (TColor c)
       else if (length colors =? 1)%nat then
         do c <- idx colors 0; turtle (TColor c)
       else ret tt) ;;
      do pts <- pyseq points_y;
      plot_points draw_speed scale_x 0 pts ;;
      turtle TPenup ;; turtle THideturtle ;; turtle TUpdate ;;
      plot_curves n colors draw_speed scale_x (S ci) rest
  end.

Definition plot_prologue : list TurtleOp :=
  [TPenup; TTracer 0 (Some 16%Z); TSpeed 0; TColor "black"].

(** [Plot.plot_table]. *)
Definition plot_table (gamma : list PyVal) (colors : list string)
    (draw_speed : Z) (scale_x : Q) : M World unit :=
  do gamma <- unpack_grouped gamma;
  let gamma := collapse_identical gamma in
  modify (emit plot_prologue) ;;
  plot_curves (length gamma) colors draw_speed scale_x 0 gamma.

Definition default_colors : list string := ["red"; "green"; "blue"].

Definition plot_table_kw (gamma : list PyVal) (draw_speed : Z) (kw : Kwargs)
    : M World unit :=
  plot_table gamma (default default_colors (kw_colors kw)) draw_speed
             (default 1 (kw_scale_x kw)).

(** [Plot.do_plot]. *)
Definition do_plot (gamma : list PyVal) (draw_speed : Z) (kw : Kwargs)
    : M World unit :=
  modify (fun w => on_plot (set_tables (tables (plot w) ++ [(gamma, kw)])) w) ;;
  plot_table_kw gamma draw_speed kw.

(** [Plot.do_clear]. *)
Definition do_clear (ls : list GridLine) : M World unit :=
  turtle TClear ;;
  modify (on_plot (set_tables [])) ;;
  modify (on_plot (set_lines (Some ls))) ;;
  draw_grid.

Fixpoint replay (ts : list (list PyVal * Kwargs)) : M World unit :=
  match ts with
  | [] => ret tt
  | t :: rest => plot_table_kw (fst t) 1024 (snd t) ;; replay rest
  end.

(** [Plot.redraw]. *)
Definition redraw : M World unit :=
  turtle TClear ;;
  setworldcoordinates ;;
  draw_grid ;;
  do w <- get;
  replay (tables (plot w)).

(** [Plot.do_close]. *)
Definition do_close : M World unit := turtle TBye.

(** Calling a queued command. *)
Definition exec_cmd (c : Cmd) : M World unit :=
  match c with
  | CmdClear ls => do_clear ls
  | CmdZoom level direction => do_zoom level direction
  | CmdPlot gamma draw_speed kw => do_plot gamma draw_speed kw
  | CmdClose => do_close
  end.

(** ** The command queue *)

(** What the thread in [run] does while a producer waits in
    [queue.put(func, timeout=1)]. *)
Inductive Consumer : Type :=
| CIdle
| CGet
| CFinish.

Definition consumer_step (c : Consumer) (p : Plot) : Plot :=
  match c with
  | CIdle => p
  | CGet => set_queue (tail (queue p)) p
  | CFinish => set_closed true p
  end.

(** [Plot.enqueue]: the queue has [maxsize=1]; every entry of [waits] is
    one timeout of [queue.put]; the result is [None] when the loop is
    still retrying at the end of [waits].  The diagnostic [print] is not
    modelled. *)
Fixpoint enqueue (waits : list Consumer) (func : Cmd) : M World (option unit) :=
  fun w =>
    if closed (plot w) then Raise PlotClosed w
    else if (length (queue (plot w)) <? 1)%nat then
      Ok (Some tt) (on_plot (set_queue (queue (plot w) ++ [func])) w)
    else match waits with
         | [] => Ok None w
         | c :: rest => enqueue rest func (on_plot (consumer_step c) w)
         end.

(** [try: m except e: pass] for the exceptions selected by [handled]. *)
Definition catch (handled : Exn -> bool) (m : M World unit) : M World unit :=
  fun w => match m w with
           | Ok a w' => Ok a w'
           | Raise e w' => if handled e then Ok tt w' else Raise e w'
           end.

(** [try: m finally: f]. *)
Definition finally {A} (m : M World A) (f : M World unit) : M World A :=
  fun w => match m w with
           | Ok a w' => match f w' with
                        | Ok _ w'' => Ok a w''
                        | Raise e w'' => Raise e w''
                        end
           | Raise e w' => match f w' with
                           | Ok _ w'' => Raise e w''
                           | Raise e' w'' => Raise e' w''
                           end
           end.

Definition is_plot_closed (e : Exn) : bool :=
  match e with PlotClosed => true | _ => false end.

Definition is_terminator (e : Exn) : bool :=
  match e with Terminator => true | _ => false end.

Definition is_shutdown (e : Exn) : bool :=
  match e with Terminator | KeyboardInterrupt => true | _ => false end.



Definition plot_curve (waits : list Consumer) (gamma : list PyVal)
    (draw_speed : Z) (kw : Kwargs) :=
  enqueue waits (CmdPlot gamma draw_speed kw).

Definition close (waits : list Consumer) : M World unit :=
  catch is_plot_closed (enqueue waits CmdClose ;; ret tt).

(** The first loop of [run]: [queue.get(timeout=1)] until a command is
    there.  An entry of [arrivals] is what producers put during one
    timeout on an empty queue; [None] is returned when the loop is still
    waiting at the end of [arrivals]. *)
Fixpoint wait_first (arrivals : list (option Cmd)) : M World (option Cmd) :=
  fun w =>
    match queue (plot w) with
    | c :: rest => Ok (Some c) (on_plot (set_queue rest) w)
    | [] => match arrivals with
            | [] => Ok None w
            | Some c :: _ => Ok (Some c) w
            | None :: later => wait_first later w
            end
    end.

(** [turtle.mainloop()]: the toolkit's event loop, which runs the timer
    callbacks until the window goes away. *)
Variable mainloop : M World unit.

(** [Plot.run]. *)
Definition run (arrivals : list (option Cmd)) : M World (option unit) :=
  do w <- get;
  if closed (plot w) then raise PlotClosed else
  do first <- wait_first arrivals;
  match first with
  | None => ret None
  | Some cmd =>
      let opened := negb (Cmd_eqb_close cmd) in
      finally
        (catch is_shutdown
           (if opened then
              do_zoom None [0; 0] ;;
              do_clear [] ;;
              exec_cmd cmd ;;
              turtle (TOntimer "check_queue" 100) ;;
              turtle TMainloop ;;
              mainloop
            else ret tt))
        (modify (on_plot (set_closed true)) ;;
         if opened then catch is_terminator (turtle TBye) else ret tt) ;;
      ret (Some tt)
  end.

(** ** Computations that do not look at [self.lines] *)

Definition relines (ls : option (list GridLine)) (w : World) : World :=
  on_plot (set_lines ls) w.

Definition rmap {A} (f : World -> World) (r : Res World A) : Res World A :=
  match r with
  | Ok a s => Ok a (f s)
  | Raise e s => Raise e (f s)
  end.

(** [m] runs the same whatever [self.lines] is, and leaves it alone. *)
Definition blind {A} (m : M World A) : Prop :=
  forall ls w, m (relines ls w) = rmap (relines ls) (m w).


(** ** The invariant of the second loop *)

(** What the second loop keeps true before the round of index [i]:
    [last[h]] is an earlier line of axis [h] that has a label, and
    [last_pos[h]] is infinite as long as [last[h]] is [None]. *)
Definition ov_inv (i : nat) (st : Overlap) : Prop :=
  forall h : bool,
    match sel h (ov_last st) with
    | Some j => (j < i)%nat
                /\ exists ln, ov_lines st !! j = Some ln
                              /\ (exists l, label ln = Some l)
                              /\ default false (horizontal ln) = h
    | None => sel h (ov_last_pos st) = NegInf
    end.

(** ** Computations that only draw *)

(** [m] touches the world only by making turtle calls, whether it
    returns or raises. *)
Definition emits {A} (m : M World A) : Prop :=
  forall w, exists ops,
    (exists a, m w = Ok a (emit ops w)) \/ (exists e, m w = Raise e (emit ops w)).

(** The pen strokes of a curve drawn from its point of index [x] on:
    one from each sample to the next. *)
Fixpoint polyline (c : string) (scale_x : Q) (x : nat) (ys : list Q) : list Mark :=
  match ys with
  | y0 :: ((y1 :: _) as rest) =>
      Stroke (inject_Z (Z.of_nat x) * scale_x, y0)
             (inject_Z (Z.of_nat (S x)) * scale_x, y1) c
      :: polyline c scale_x (S x) rest
  | _ => []
  end.


(** [b] is the line [a], or [a] with its label deleted. *)
Definition label_dropped (a b : GridLine) : Prop := b = a \/ b = drop_label a.


(** ** The grid in floating point *)







(** * Properties *)

Lemma Qltb_true a b : Qltb a b = true <-> a < b.
Proof.
  unfold Qltb. rewrite negb_true_iff. split; intros H.
  - apply Qnot_le_lt. intros Hle. apply Qle_bool_iff in Hle. congruence.
  - destruct (Qle_bool b a) eqn:E; [| reflexivity].
    apply Qle_bool_iff in E. exfalso. apply (Qlt_not_le _ _ H E).
Qed.

Lemma Qltb_false a b : Qltb a b = false <-> b <= a.
Proof.
  unfold Qltb. rewrite negb_false_iff. apply Qle_bool_iff.
Qed.

Lemma pydiv_ok {S} (a b : Q) (s : S) :
  ~ b == 0 -> pydiv a b s = Ok (a / b) s.
Proof.
  intros H. unfold pydiv. destruct (Qeq_bool b 0) eqn:E; [| reflexivity].
  apply Qeq_bool_iff in E. contradiction.
Qed.

Lemma pydiv_zero {S} (a b : Q) (s : S) :
  b == 0 -> pydiv a b s = Raise ZeroDivisionError s.
Proof.
  intros H. unfold pydiv. apply Qeq_bool_iff in H. rewrite H. reflexivity.
Qed.

Lemma length4 {A} (l : list A) :
  length l = 4%nat -> exists a b c d, l = [a; b; c; d].
Proof.
  destruct l as [|a [|b [|c [|d [|e l]]]]]; simpl; intros H; try discriminate.
  eauto.
Qed.

(** ** Zoom *)


(** C8: [do_zoom] with [level=None] sets the zoom rectangle to the whole
    plot area and the scale to 1, whatever they were before. *)
Theorem do_zoom_reset (w : World) (direction : list Q) :
  length (plot_area (plot w)) = 4%nat ->
  length (margin (plot w)) = 4%nat ->
  exists w', do_zoom None direction w = Ok tt w'
             /\ zoom_area (plot w') = plot_area (plot w)
             /\ scale (plot w') = 1
             /\ plot_area (plot w') = plot_area (plot w).
Proof.
  intros Hp Hm.
  destruct (length4 _ Hp) as (a & b & c & d & Ep).
  destruct (length4 _ Hm) as (m0 & m1 & m2 & m3 & Em).
  unfold do_zoom, setworldcoordinates, bind, modify, get, turtle,
    turtle_setworldcoordinates; simpl.
  rewrite Ep, Em; simpl.
  eexists; split; [reflexivity |]. simpl. auto.
Qed.

Lemma idx_ok {S A} (l : list A) (i : nat) (x : A) (s : S) :
  l !! i = Some x -> idx l i s = Ok x s.
Proof. intros H. unfold idx. rewrite H. reflexivity. Qed.

Lemma upd_ok {S A} (l : list A) (i : nat) (x : A) (s : S) :
  (i < length l)%nat -> upd l i x s = Ok (<[i:=x]> l) s.
Proof.
  intros H. unfold upd. apply Nat.ltb_lt in H. rewrite H. reflexivity.
Qed.

Lemma clamp_steps (v lo hi : Q) :
  lo <= hi ->
  (let n := if Qltb v lo then lo else v in
   if Qltb hi n then hi else n) == clamp v lo hi.
Proof.
  intros Hle. unfold clamp. cbv zeta.
  destruct (Q.max_spec v lo) as [[H1 E1] | [H1 E1]];
    destruct (Q.min_spec (Qmax v lo) hi) as [[H2 E2] | [H2 E2]];
    rewrite E2; rewrite E1 in *.
  - apply Qltb_true in H1. rewrite H1.
    destruct (Qltb hi lo) eqn:E; [apply Qltb_true in E; lra | reflexivity].
  - apply Qltb_true in H1. rewrite H1.
    destruct (Qltb hi lo) eqn:E; [reflexivity | apply Qltb_false in E; lra].
  - apply Qltb_false in H1. rewrite H1.
    destruct (Qltb hi v) eqn:E; [apply Qltb_true in E; lra | reflexivity].
  - apply Qltb_false in H1. rewrite H1.
    destruct (Qltb hi v) eqn:E; [reflexivity | apply Qltb_false in E; lra].
Qed.

(** ** The command queue and the run loop *)

(** C2 (amended): once the closed flag is set, which [run] does when it
    ends, [enqueue] raises [PlotClosed] and leaves the queue as it is. *)
Theorem enqueue_closed (w : World) (waits : list Consumer) (func : Cmd) :
  closed (plot w) = true ->
  enqueue waits func w = Raise PlotClosed w.
Proof.
  intros H. destruct waits; simpl; rewrite H; reflexivity.
Qed.

Lemma wait_first_screen (arrivals : list (option Cmd)) (w w1 : World)
    (r : option Cmd) :
  wait_first arrivals w = Ok r w1 ->
  screen w1 = screen w /\ closed (plot w1) = closed (plot w).
Proof.
  revert w w1 r. induction arrivals as [|a arrivals IH]; intros w w1 r; simpl.
  - destruct (queue (plot w)); intros H; inversion H; subst; auto.
  - destruct (queue (plot w)).
    + destruct a; [intros H; inversion H; subst; auto | apply IH].
    + intros H; inversion H; subst; auto.
Qed.

Lemma wait_first_total (arrivals : list (option Cmd)) (w : World) :
  exists r w1, wait_first arrivals w = Ok r w1.
Proof.
  revert w. induction arrivals as [|a arrivals IH]; intros w; simpl.
  - destruct (queue (plot w)); eauto.
  - destruct (queue (plot w)); [| eauto]. destruct a; eauto.
Qed.

(** C9: when the first command [run] takes from the queue is the close
    command, [run] returns with the closed flag set and has made no
    turtle call: the screen and its log are as before. *)
Theorem run_close_first (w w1 : World) (arrivals : list (option Cmd)) :
  closed (plot w) = false ->
  wait_first arrivals w = Ok (Some CmdClose) w1 ->
  run arrivals w = Ok (Some tt) (on_plot (set_closed true) w1)
  /\ closed (plot (on_plot (set_closed true) w1)) = true
  /\ screen (on_plot (set_closed true) w1) = screen w.
Proof.
  intros Hc Hw.
  destruct (wait_first_screen _ _ _ _ Hw) as [Hs _].
  unfold run, bind, get. rewrite Hc. rewrite Hw. simpl.
  auto.
Qed.

(** ** Curves *)

Lemma emit_emit (a b : list TurtleOp) (w : World) :
  emit b (emit a w) = emit (a ++ b) w.
Proof.
  unfold emit; simpl. rewrite <- app_assoc. reflexivity.
Qed.

(** C10: a single argument of length 3 is always unpacked, so the three
    samples of a lone 3-sample curve are taken as three curves; none of
    them can be iterated, and no point of the curve is ever drawn. *)
Theorem plot_table_three_samples (a b c : Q) (colors : list string)
    (draw_speed : Z) (scale_x : Q) (w : World) :
  (forall u v t : PyVal,
      unpack_grouped [Seq [u; v; t]] w = Ok [u; v; t] w)
  /\ exists ops,
      plot_table [Seq [Num a; Num b; Num c]] colors draw_speed scale_x w
      = Raise TypeError (emit ops w)
      /\ forall x y, ~ In (TSetposition x y) ops.
Proof.
  split; [reflexivity |].
  unfold plot_table, bind, modify; simpl.
  assert (Hcol : forall n, (n = 1 \/ n = 3)%nat ->
    exists ops,
      (if (n =? length colors)%nat
       then do c0 <- idx colors 0; turtle (TColor c0)
       else if (length colors =? 1)%nat
            then do c0 <- idx colors 0; turtle (TColor c0)
            else ret tt) (emit plot_prologue w) = Ok tt (emit ops w)
      /\ forall x y, ~ In (TSetposition x y) ops).
  { intros n Hn. destruct colors as [|c0 cs].
    - simpl. replace (n =? 0)%nat with false
        by (symmetry; apply Nat.eqb_neq; lia).
      exists plot_prologue. split; [reflexivity |].
      intros x y [H | [H | [H | [H | []]]]]; discriminate.
    - assert (Hc : (do c1 <- idx (c0 :: cs) 0; turtle (TColor c1))
                     (emit plot_prologue w)
                   = Ok tt (emit (plot_prologue ++ [TColor c0]) w)).
      { unfold bind, turtle, modify; simpl. rewrite emit_emit. reflexivity. }
      assert (Hno : forall x y,
                 ~ In (TSetposition x y) (plot_prologue ++ [TColor c0])).
      { intros x y [H | [H | [H | [H | [H | []]]]]]; discriminate. }
      destruct (n =? length (c0 :: cs))%nat; [eauto |].
      destruct (length (c0 :: cs) =? 1)%nat; [eauto |].
      exists plot_prologue. split; [reflexivity |].
      intros x y [H | [H | [H | [H | []]]]]; discriminate. }
  destruct (Qeq_bool a a && (Qeq_bool b a && (Qeq_bool c a && true))) eqn:E;
    simpl.
  - destruct (Hcol 1%nat) as (ops & Ho & Hno); [auto |].
    exists ops. split; [| exact Hno].
    unfold bind in *. simpl in Ho. rewrite Ho. reflexivity.
  - destruct (Hcol 3%nat) as (ops & Ho & Hno); [auto |].
    exists ops. split; [| exact Hno].
    unfold bind in *. simpl in Ho. rewrite Ho. reflexivity.
Qed.

(** ** The grid *)








Lemma label_size_ok (lbl : string) (w : World) :
  ~ xscale (screen w) == 0 -> ~ yscale (screen w) == 0 ->
  exists sz, label_size lbl w = Ok sz w.
Proof.
  intros Hx Hy. unfold label_size, bind, get.
  rewrite !pydiv_ok by assumption. eexists. reflexivity.
Qed.

Lemma label_pos_ok (p : Q) (lbl : string) (h : bool) (w : World) :
  ~ xscale (screen w) == 0 -> ~ yscale (screen w) == 0 ->
  exists lp, label_pos p lbl h w = Ok lp w.
Proof.
  intros Hx Hy. unfold label_pos, bind, get.
  rewrite !pydiv_ok by assumption.
  destruct h.
  - rewrite !pydiv_ok by assumption. eexists. reflexivity.
  - unfold ret. rewrite !pydiv_ok by assumption. eexists. reflexivity.
Qed.

Lemma truthy_label (ln : GridLine) :
  truthy (label ln) = true -> exists l, label ln = Some l.
Proof. destruct (label ln); [eauto | discriminate]. Qed.

Lemma sel_put {A} (h : bool) (x : A) (p : A * A) : sel h (put h x p) = x.
Proof. destruct h; reflexivity. Qed.

(** ** Sorting and a line that is left out *)

Lemma insert_line_here (x : GridLine) (s : list GridLine) :
  exists s1 s2,
    insert_line x s = s1 ++ x :: s2 /\ s = s1 ++ s2
    /\ (forall y, head s2 = Some y -> pos x <= pos y).
Proof.
  induction s as [|y r IH]; simpl.
  - exists [], []. split; [reflexivity |]. split; [reflexivity |].
    intros y H; discriminate H.
  - destruct (Qle_bool (pos x) (pos y)) eqn:E.
    + exists [], (y :: r). split; [reflexivity |]. split; [reflexivity |].
      intros y' H. inversion H; subst. apply Qle_bool_iff. exact E.
    + destruct IH as (s1 & s2 & E1 & E2 & Hh).
      exists (y :: s1), s2. rewrite E1, E2. auto.
Qed.

Lemma insert_line_around (x L : GridLine) (s1 s2 : list GridLine) :
  (forall y, head s2 = Some y -> pos L <= pos y) ->
  exists s1' s2',
    insert_line x (s1 ++ L :: s2) = s1' ++ L :: s2'
    /\ insert_line x (s1 ++ s2) = s1' ++ s2'
    /\ (forall y, head s2' = Some y -> pos L <= pos y).
Proof.
  intros Hh. induction s1 as [|y r IH]; simpl.
  - destruct (Qle_bool (pos x) (pos L)) eqn:E.
    + exists [x], s2. split; [reflexivity |]. split; [| exact Hh].
      destruct s2 as [|y r]; [reflexivity |]. simpl.
      apply Qle_bool_iff in E.
      assert (Hxy : pos x <= pos y) by (specialize (Hh y eq_refl); lra).
      apply Qle_bool_iff in Hxy. rewrite Hxy. reflexivity.
    + exists [], (insert_line x s2). split; [reflexivity |].
      split; [reflexivity |].
      assert (Hlt : pos L <= pos x).
      { apply Qlt_le_weak. apply Qnot_le_lt. intros Hle.
        apply Qle_bool_iff in Hle. congruence. }
      destruct s2 as [|y r]; simpl.
      * intros y H; inversion H; subst. exact Hlt.
      * destruct (Qle_bool (pos x) (pos y)); simpl;
          intros y' H; inversion H; subst; [exact Hlt |].
        apply Hh. reflexivity.
  - destruct (Qle_bool (pos x) (pos y)) eqn:E.
    + exists (x :: y :: r), s2. auto.
    + destruct IH as (s1' & s2' & E1 & E2 & Hh').
      exists (y :: s1'), s2'. rewrite E1, E2. auto.
Qed.

(** Sorting with and without one line gives the same order of the
    other lines. *)
Lemma sort_lines_without (l1 l2 : list GridLine) (L : GridLine) :
  exists s1 s2,
    sort_lines (l1 ++ L :: l2) = s1 ++ L :: s2
    /\ sort_lines (l1 ++ l2) = s1 ++ s2.
Proof.
  assert (H : exists s1 s2,
             sort_lines (l1 ++ L :: l2) = s1 ++ L :: s2
             /\ sort_lines (l1 ++ l2) = s1 ++ s2
             /\ (forall y, head s2 = Some y -> pos L <= pos y)).
  { induction l1 as [|x r IH]; simpl.
    - destruct (insert_line_here L (sort_lines l2)) as (s1 & s2 & E1 & E2 & Hh).
      exists s1, s2. auto.
    - destruct IH as (s1 & s2 & E1 & E2 & Hh).
      unfold sort_lines in *. rewrite E1, E2.
      apply insert_line_around. exact Hh. }
  destruct H as (s1 & s2 & E1 & E2 & _). eauto.
Qed.


(** ** Independence of [self.lines] *)

Lemma blind_ret {A} (a : A) : blind (ret a).
Proof. intros ls w. reflexivity. Qed.

Lemma blind_raise {A} (e : Exn) : blind (@raise World A e).
Proof. intros ls w. reflexivity. Qed.

Lemma blind_bind {A B} (m : M World A) (k : A -> M World B) :
  blind m -> (forall a, blind (k a)) -> blind (bind m k).
Proof.
  intros Hm Hk ls w. unfold bind. rewrite Hm.
  destruct (m w) as [a s | e s]; simpl; [apply Hk | reflexivity].
Qed.

Lemma blind_get {B} (k : World -> M World B) :
  (forall w0, blind (k w0)) ->
  (forall ls w, k (relines ls w) = k w) ->
  blind (bind get k).
Proof.
  intros Hk Hc ls w. unfold bind, get. rewrite Hc. apply Hk.
Qed.

Lemma blind_modify (f : World -> World) :
  (forall ls w, f (relines ls w) = relines ls (f w)) -> blind (modify f).
Proof. intros H ls w. unfold modify. simpl. rewrite H. reflexivity. Qed.

Lemma blind_turtle (op : TurtleOp) : blind (turtle op).
Proof. apply blind_modify. reflexivity. Qed.

Lemma blind_pydiv (a b : Q) : blind (pydiv a b).
Proof. intros ls w. unfold pydiv. destruct (Qeq_bool b 0); reflexivity. Qed.

Lemma blind_idx {A} (l : list A) (i : nat) : blind (idx l i).
Proof. intros ls w. unfold idx. destruct (l !! i); reflexivity. Qed.

Lemma blind_upd {A} (l : list A) (i : nat) (x : A) : blind (upd l i x).
Proof. intros ls w. unfold upd. destruct (i <? length l)%nat; reflexivity. Qed.

Ltac blind_step :=
  match goal with
  | |- blind (ret _) => apply blind_ret
  | |- blind (raise _) => apply blind_raise
  | |- blind (pydiv _ _) => apply blind_pydiv
  | |- blind (idx _ _) => apply blind_idx
  | |- blind (upd _ _ _) => apply blind_upd
  | |- blind (turtle _) => apply blind_turtle
  | |- blind (modify _) => apply blind_modify; reflexivity
  | |- blind (bind get _) => apply blind_get; [intros ? | reflexivity]
  | |- blind (bind _ _) => apply blind_bind; [| intros ?]
  | |- blind (if ?b then _ else _) => destruct b
  | |- blind (match ?x with _ => _ end) => destruct x
  | H : _ |- blind _ => apply H
  end.

Ltac blind_tac := cbv zeta; repeat blind_step.

Lemma label_size_blind (lbl : string) : blind (label_size lbl).
Proof. unfold label_size. blind_tac. Qed.

Lemma label_pos_blind (p : Q) (lbl : string) (h : bool) :
  blind (label_pos p lbl h).
Proof. unfold label_pos. blind_tac. Qed.

Lemma margin_axis_blind (pad msc size : Q * Q) (i : bool) (p : Q) (m : list Q) :
  blind (margin_axis pad msc size i p m).
Proof. unfold margin_axis. blind_tac. Qed.

Lemma margin_line_blind (pad msc : Q * Q) (ln : GridLine) (m : list Q) :
  blind (margin_line pad msc ln m).
Proof.
  pose proof label_size_blind. pose proof label_pos_blind.
  pose proof margin_axis_blind.
  unfold margin_line. blind_tac.
Qed.

Lemma margin_pass_blind (pad msc : Q * Q) (ls : list GridLine) (m : list Q) :
  blind (margin_pass pad msc ls m).
Proof.
  revert m. induction ls as [|ln rest IH]; intros m; simpl.
  - apply blind_ret.
  - apply blind_bind; [apply margin_line_blind | intros r].
    apply blind_bind; [apply IH | intros r']. apply blind_ret.
Qed.

Lemma store_margin_blind (i : nat) (m : list Q) (r : bool) :
  blind (store_margin i m r).
Proof.
  revert i r. induction m as [|p rest IH]; intros i r; simpl.
  - apply blind_ret.
  - blind_tac; apply IH.
Qed.

Lemma setworldcoordinates_blind : blind setworldcoordinates.
Proof.
  unfold setworldcoordinates, turtle_setworldcoordinates. blind_tac.
Qed.

Lemma del_label_blind (i : nat) (ls : list GridLine) : blind (del_label i ls).
Proof. unfold del_label. blind_tac. Qed.

Lemma overlap_line_blind (i : nat) (st : Overlap) : blind (overlap_line i st).
Proof.
  pose proof label_size_blind. pose proof del_label_blind.
  unfold overlap_line. blind_tac.
Qed.

Lemma overlap_from_blind (n i : nat) (st : Overlap) : blind (overlap_from n i st).
Proof.
  revert i st. induction n as [|n IH]; intros i st; simpl.
  - apply blind_ret.
  - apply blind_bind; [apply overlap_line_blind | intros st']. apply IH.
Qed.

Lemma overlap_pass_blind (ls : list GridLine) : blind (overlap_pass ls).
Proof.
  unfold overlap_pass. apply blind_bind; [apply overlap_from_blind | intros st].
  apply blind_ret.
Qed.

Lemma draw_line_blind (ln : GridLine) : blind (draw_line ln).
Proof.
  pose proof label_pos_blind. unfold draw_line. blind_tac.
Qed.

Lemma draw_lines_blind (ls : list GridLine) : blind (draw_lines ls).
Proof.
  induction ls as [|ln rest IH]; simpl.
  - apply blind_ret.
  - apply blind_bind; [apply draw_line_blind | intros _; exact IH].
Qed.

Lemma draw_grid_lines_blind (ls0 : list GridLine) : blind (draw_grid_lines ls0).
Proof.
  pose proof margin_pass_blind. pose proof store_margin_blind.
  pose proof setworldcoordinates_blind. pose proof overlap_pass_blind.
  pose proof draw_lines_blind.
  unfold draw_grid_lines. blind_tac.
Qed.


(** ** The margin loop returns *)

Lemma margin_axis_ok (pad msc size : Q * Q) (i : bool) (p : Q) (m : list Q)
    (w : World) :
  length m = 4%nat ->
  length (plot_area (plot w)) = 4%nat ->
  exists m', margin_axis pad msc size i p m w = Ok m' w /\ length m' = 4%nat.
Proof.
  intros Hm Ha.
  destruct (length4 _ Hm) as (m0 & m1 & m2 & m3 & ->).
  destruct (length4 _ Ha) as (a0 & a1 & a2 & a3 & Ea).
  unfold margin_axis.
  destruct i;
    repeat first
      [ rewrite Ea
      | match goal with
        | |- context [if Qltb ?a ?b then _ else _] => destruct (Qltb a b)
        end
      | progress cbv [bind get idx upd lookup list_lookup insert list_insert
                      length Nat.ltb Nat.leb Nat.b2n Nat.add ret] ];
    eexists; split; reflexivity.
Qed.

Lemma margin_line_ok (pad msc : Q * Q) (ln : GridLine) (m : list Q) (w : World) :
  length m = 4%nat ->
  length (zoom_area (plot w)) = 4%nat ->
  length (plot_area (plot w)) = 4%nat ->
  ~ xscale (screen w) == 0 -> ~ yscale (screen w) == 0 ->
  exists ln' m',
    margin_line pad msc ln m w = Ok (ln', m') w
    /\ length m' = 4%nat
    /\ (ln' = ln \/ ln' = drop_label ln).
Proof.
  intros Hm Hz Ha Hx Hy.
  destruct (length4 _ Hz) as (z0 & z1 & z2 & z3 & Ez).
  unfold margin_line.
  destruct (truthy (label ln)); cbv [negb].
  2:{ exists ln, m. unfold ret. auto. }
  cbv [bind get]. rewrite Ez.
  set (h := default false (horizontal ln)).
  set (lbl := default "" (label ln)).
  assert (Hbody : exists m',
    (do size <- label_size lbl;
     do lp <- label_pos (pos ln) lbl h;
     do m0 <- margin_axis pad msc size false
                (fst lp - fst size / (if h then 1 else 2)) m;
     do m1 <- margin_axis pad msc size true (snd lp) m0;
     ret (ln, m1)) w = Ok (ln, m') w /\ length m' = 4%nat).
  { cbv [bind].
    destruct (label_size_ok lbl w Hx Hy) as (sz & ->).
    destruct (label_pos_ok (pos ln) lbl h w Hx Hy) as (lp & ->).
    destruct (margin_axis_ok pad msc sz false
                (fst lp - fst sz / (if h then 1 else 2)) m w Hm Ha)
      as (m0 & -> & L0).
    destruct (margin_axis_ok pad msc sz true (snd lp) m0 w L0 Ha)
      as (m1 & -> & L1).
    exists m1. split; [reflexivity | exact L1]. }
  destruct Hbody as (m' & Eb & Lb). cbv [bind ret] in Eb.
  destruct h; cbv [idx lookup list_lookup Nat.b2n Nat.add ret].
  - destruct (Qltb (pos ln) z1); [exists (drop_label ln), m; auto |].
    destruct (Qltb z3 (pos ln)); [exists (drop_label ln), m; auto |].
    exists ln, m'. split; [exact Eb | auto].
  - destruct (Qltb (pos ln) z0); [exists (drop_label ln), m; auto |].
    destruct (Qltb z2 (pos ln)); [exists (drop_label ln), m; auto |].
    exists ln, m'. split; [exact Eb | auto].
Qed.

(** A line outside the zoom rectangle leaves the margin as it is and
    comes out of the loop without a label to draw. *)
Lemma margin_line_outside (pad msc : Q * Q) (L : GridLine) (m : list Q)
    (w : World) (z0 z1 z2 z3 : Q) :
  zoom_area (plot w) = [z0; z1; z2; z3] ->
  pos L < sel (default false (horizontal L)) (z0, z1)
  \/ sel (default false (horizontal L)) (z2, z3) < pos L ->
  exists L',
    margin_line pad msc L m w = Ok (L', m) w
    /\ truthy (label L') = false
    /\ pos L' = pos L /\ horizontal L' = horizontal L.
Proof.
  intros Ez Hout. unfold margin_line.
  destruct (truthy (label L)) eqn:Et; cbv [negb].
  2:{ exists L. unfold ret. auto. }
  cbv [bind get]. rewrite Ez.
  exists (drop_label L).
  split; [| simpl; auto].
  destruct (default false (horizontal L));
    cbv [idx lookup list_lookup Nat.b2n Nat.add ret]; simpl sel in Hout.
  - destruct (Qltb (pos L) z1) eqn:E1; [reflexivity |].
    destruct (Qltb z3 (pos L)) eqn:E2; [reflexivity |].
    apply Qltb_false in E1, E2. exfalso. lra.
  - destruct (Qltb (pos L) z0) eqn:E1; [reflexivity |].
    destruct (Qltb z2 (pos L)) eqn:E2; [reflexivity |].
    apply Qltb_false in E1, E2. exfalso. lra.
Qed.

Lemma margin_pass_ok (pad msc : Q * Q) (ls : list GridLine) (m : list Q)
    (w : World) :
  length m = 4%nat ->
  length (zoom_area (plot w)) = 4%nat ->
  length (plot_area (plot w)) = 4%nat ->
  ~ xscale (screen w) == 0 -> ~ yscale (screen w) == 0 ->
  exists ls' m',
    margin_pass pad msc ls m w = Ok (ls', m') w /\ length m' = 4%nat.
Proof.
  intros Hm Hz Ha Hx Hy. revert m Hm.
  induction ls as [|ln rest IH]; intros m Hm; simpl.
  - exists [], m. unfold ret. auto.
  - destruct (margin_line_ok pad msc ln m w Hm Hz Ha Hx Hy)
      as (ln' & m1 & E1 & L1 & _).
    destruct (IH m1 L1) as (ls' & m' & E2 & L2).
    exists (ln' :: ls'), m'. cbv [bind]. rewrite E1. simpl. rewrite E2.
    auto.
Qed.

Lemma margin_pass_app (pad msc : Q * Q) (s1 s2 t1 t2 : list GridLine)
    (m m1 m2 : list Q) (w : World) :
  length m = 4%nat ->
  length (zoom_area (plot w)) = 4%nat ->
  length (plot_area (plot w)) = 4%nat ->
  ~ xscale (screen w) == 0 -> ~ yscale (screen w) == 0 ->
  margin_pass pad msc s1 m w = Ok (t1, m1) w ->
  margin_pass pad msc s2 m1 w = Ok (t2, m2) w ->
  margin_pass pad msc (s1 ++ s2) m w = Ok (t1 ++ t2, m2) w.
Proof.
  intros Hm Hz Ha Hx Hy. revert t1 m Hm.
  induction s1 as [|ln rest IH]; intros t1 m Hm; simpl.
  - unfold ret. intros H; inversion H; subst. auto.
  - destruct (margin_line_ok pad msc ln m w Hm Hz Ha Hx Hy)
      as (ln' & mm & E1 & L1 & _).
    cbv [bind]. rewrite E1. simpl.
    destruct (margin_pass pad msc rest mm w) as [[ls' mm'] w2 | e w2] eqn:E;
      [| discriminate].
    unfold ret. intros H; inversion H; subst. intros H2.
    rewrite (IH ls' mm L1 E H2). reflexivity.
Qed.

(** ** The second loop, round by round *)

Lemma overlap_line_skip (i : nat) (st : Overlap) (w : World) (ln : GridLine) :
  ov_lines st !! i = Some ln ->
  truthy (label ln) = false ->
  overlap_line i st w = Ok st w.
Proof.
  intros Hl Ht. unfold overlap_line. cbv [bind].
  rewrite (idx_ok _ _ _ _ Hl). rewrite Ht. reflexivity.
Qed.

Lemma overlap_line_eval (i : nat) (st : Overlap) (w : World) (ln : GridLine)
    (sz : Q * Q) :
  ov_lines st !! i = Some ln ->
  truthy (label ln) = true ->
  label_size (default "" (label ln)) w = Ok sz w ->
  let h := default false (horizontal ln) in
  let pad := sel h sz * (6 # 10) in
  let kept := fun ls => mkOverlap ls (put h (Some i) (ov_last st))
                                  (put h (Fin (pos ln + pad)) (ov_last_pos st)) in
  overlap_line i st w =
  if lt_ext (pos ln - pad) (sel h (ov_last_pos st)) then
    match sel h (ov_last st) with
    | None => Raise AttributeError w
    | Some j =>
        match ov_lines st !! j with
        | None => Raise IndexError w
        | Some lastln =>
            if (prio ln <=? prio lastln)%Z then
              Ok (mkOverlap (<[i := drop_label ln]> (ov_lines st))
                            (ov_last st) (ov_last_pos st)) w
            else match label lastln with
                 | None => Raise KeyError w
                 | Some _ => Ok (kept (<[j := drop_label lastln]> (ov_lines st))) w
                 end
        end
    end
  else Ok (kept (ov_lines st)) w.
Proof.
  intros Hl Ht Hs h pad kept.
  destruct (truthy_label _ Ht) as (l & El).
  unfold overlap_line. cbv [bind].
  rewrite (idx_ok _ _ _ _ Hl). rewrite Ht. cbv [negb]. rewrite Hs.
  fold h. fold pad.
  destruct (lt_ext (pos ln - pad) (sel h (ov_last_pos st))); [| reflexivity].
  destruct (sel h (ov_last st)) as [j |]; [| reflexivity].
  destruct (ov_lines st !! j) as [lastln |] eqn:Ej.
  2:{ unfold idx. rewrite Ej. reflexivity. }
  rewrite (idx_ok _ _ _ _ Ej).
  destruct (prio ln <=? prio lastln)%Z.
  - unfold del_label. cbv [bind]. rewrite (idx_ok _ _ _ _ Hl). rewrite El.
    reflexivity.
  - unfold del_label. cbv [bind]. rewrite (idx_ok _ _ _ _ Ej).
    destruct (label lastln); reflexivity.
Qed.


(** ** More on zooming *)

(** X1: a zoom level of 0 raises [ZeroDivisionError] on the first axis:
    the scale has been reset to 1 by then, the zoom rectangle is as it
    was and no turtle call has been made. *)
Theorem do_zoom_level_zero (w : World) (level dx dy xl yl xh yh pxl pyl pxh pyh : Q) :
  level == 0 ->
  zoom_area (plot w) = [xl; yl; xh; yh] ->
  plot_area (plot w) = [pxl; pyl; pxh; pyh] ->
  do_zoom (Some level) [dx; dy] w
  = Raise ZeroDivisionError (on_plot (set_scale 1) w).
Proof.
  intros Hl Hz Hp.
  destruct w as [pl sc]. destruct pl. simpl in Hz, Hp. subst.
  unfold do_zoom, zoom_axis. cbv [bind modify get on_plot set_scale plot
    zoom_area plot_area idx lookup list_lookup Nat.add ret].
  rewrite (pydiv_zero _ _ _ Hl). reflexivity.
Qed.





(** ** More on the queue and the run loop *)

Lemma enqueue_raises (waits : list Consumer) (func : Cmd) (w w' : World)
    (e : Exn) :
  enqueue waits func w = Raise e w' ->
  e = PlotClosed /\ closed (plot w') = true.
Proof.
  revert w. induction waits as [|c rest IH]; intros w; simpl.
  - destruct (closed (plot w)) eqn:Ec.
    + intros H. inversion H; subst. auto.
    + destruct (length (queue (plot w)) <? 1)%nat; discriminate.
  - destruct (closed (plot w)) eqn:Ec.
    + intros H. inversion H; subst. auto.
    + destruct (length (queue (plot w)) <? 1)%nat; [discriminate | apply IH].
Qed.

(** X4: the three ways [enqueue] can end.  It returns with its command
    as the only one on the queue, or it is still retrying on a full
    queue, or it raises [PlotClosed], and then the closed flag is set;
    nothing else is raised and the queue never holds two commands after
    a delivery. *)
Theorem enqueue_outcomes (waits : list Consumer) (func : Cmd) (w : World) :
  match enqueue waits func w with
  | Ok (Some _) w' => queue (plot w') = [func]
  | Ok None w' => queue (plot w') <> []
  | Raise e w' => e = PlotClosed /\ closed (plot w') = true
  end.
Proof.
  revert w. induction waits as [|c rest IH]; intros w; simpl.
  - destruct (closed (plot w)) eqn:Ec; [auto |].
    destruct (queue (plot w)) as [|q qs] eqn:Eq; simpl.
    + reflexivity.
    + rewrite ?Eq. discriminate.
  - destruct (closed (plot w)) eqn:Ec; [auto |].
    destruct (queue (plot w)) as [|q qs] eqn:Eq; simpl.
    + reflexivity.
    + apply IH.
Qed.

(** X5: [close] never raises, whatever the consumer does meanwhile,
    and on a closed instance it changes nothing. *)
Theorem close_never_raises (waits : list Consumer) (w : World) :
  exists w', close waits w = Ok tt w'
             /\ (closed (plot w) = true -> w' = w).
Proof.
  unfold close, catch, bind.
  assert (Hclosed : closed (plot w) = true ->
                    enqueue waits CmdClose w = Raise PlotClosed w).
  { intros Hc. destruct waits; simpl; rewrite Hc; reflexivity. }
  destruct (enqueue waits CmdClose w) as [r w' | e w'] eqn:E.
  - exists w'. split; [reflexivity |]. intros Hc.
    specialize (Hclosed Hc). discriminate Hclosed.
  - destruct (enqueue_raises _ _ _ _ _ E) as [-> Hc']. simpl.
    exists w'. split; [reflexivity |].
    intros Hc. specialize (Hclosed Hc).
    inversion Hclosed. reflexivity.
Qed.

Lemma wait_first_none (arrivals : list (option Cmd)) (w w1 : World) :
  wait_first arrivals w = Ok None w1 -> w1 = w.
Proof.
  revert w w1. induction arrivals as [|a rest IH]; intros w w1; simpl.
  - destruct (queue (plot w)); intros H; inversion H; reflexivity.
  - destruct (queue (plot w)); [| intros H; inversion H].
    destruct a; [intros H; inversion H | apply IH].
Qed.

Lemma wait_first_no_raise (arrivals : list (option Cmd)) (w w1 : World) (e : Exn) :
  wait_first arrivals w <> Raise e w1.
Proof.
  destruct (wait_first_total arrivals w) as (r & w' & E). rewrite E.
  discriminate.
Qed.

(** X6: however [run] ends once a first command has arrived, by
    returning or by an exception of the command or of the event loop,
    the closed flag is set; it is left unset only while [run] is still
    waiting for the first command, and [run] on a closed instance
    raises [PlotClosed] at once. *)
Theorem run_sets_closed (arrivals : list (option Cmd)) (w : World) :
  match run arrivals w with
  | Ok (Some _) w' => closed (plot w') = true
  | Ok None w' => w' = w /\ closed (plot w) = false
  | Raise e w' => closed (plot w') = true
                  /\ (closed (plot w) = true -> e = PlotClosed /\ w' = w)
  end.
Proof.
  unfold run. cbv [bind get].
  destruct (closed (plot w)) eqn:Ec.
  { simpl. auto. }
  destruct (wait_first arrivals w) as [first w1 | e w1] eqn:Ew.
  2:{ exfalso. exact (wait_first_no_raise _ _ _ _ Ew). }
  destruct first as [cmd |].
  2:{ simpl. split; [exact (wait_first_none _ _ _ Ew) | reflexivity]. }
  unfold finally, catch.
  set (body := if negb (Cmd_eqb_close cmd) then _ else _).
  destruct (body w1) as [a w2 | e w2]; [| destruct (is_shutdown e)];
    cbv [bind modify turtle ret]; destruct (negb (Cmd_eqb_close cmd));
    simpl; try reflexivity;
    (split; [reflexivity | intros H; discriminate H]).
Qed.

(** X7: when the first command is not the close command, [run] always
    ends by setting the closed flag and calling [turtle.bye()], and a
    [Terminator] or [KeyboardInterrupt] out of the command or the event
    loop is not passed on to the caller; any other exception is. *)
Theorem run_teardown (arrivals : list (option Cmd)) (w w1 : World) (cmd : Cmd) :
  closed (plot w) = false ->
  wait_first arrivals w = Ok (Some cmd) w1 ->
  Cmd_eqb_close cmd = false ->
  exists w2,
    run arrivals w = Ok (Some tt) (emit [TBye] (on_plot (set_closed true) w2))
    \/ exists e, is_shutdown e = false
                 /\ run arrivals w
                    = Raise e (emit [TBye] (on_plot (set_closed true) w2)).
Proof.
  intros Hc Hw Hcmd.
  unfold run. cbv [bind get]. rewrite Hc, Hw.
  unfold finally, catch.
  set (body := if negb (Cmd_eqb_close cmd) then _ else _).
  destruct (body w1) as [a w2 | e w2]; exists w2;
    [left | destruct (is_shutdown e) eqn:Es;
            [left | right; exists e; split; [exact Es |]]];
    cbv [modify turtle ret]; rewrite Hcmd; reflexivity.
Qed.

(** ** Plotting only draws *)

Lemma emit_nil (w : World) : emit [] w = w.
Proof.
  destruct w as [p s]. destruct s. unfold emit. simpl.
  rewrite app_nil_r. reflexivity.
Qed.

Lemma emits_ret {A} (a : A) : emits (ret a).
Proof. intros w. exists []. left. exists a. rewrite emit_nil. reflexivity. Qed.

Lemma emits_raise {A} (e : Exn) : emits (@raise World A e).
Proof. intros w. exists []. right. exists e. rewrite emit_nil. reflexivity. Qed.

Lemma emits_turtle (op : TurtleOp) : emits (turtle op).
Proof. intros w. exists [op]. left. exists tt. reflexivity. Qed.

Lemma emits_emit (ops : list TurtleOp) : emits (modify (emit ops)).
Proof. intros w. exists ops. left. exists tt. reflexivity. Qed.

Lemma emits_bind {A B} (m : M World A) (k : A -> M World B) :
  emits m -> (forall a, emits (k a)) -> emits (bind m k).
Proof.
  intros Hm Hk w. unfold bind.
  destruct (Hm w) as (ops & [(a & ->) | (e & ->)]).
  - destruct (Hk a (emit ops w)) as (ops' & [(b & ->) | (e & ->)]);
      exists (ops ++ ops'); rewrite emit_emit; eauto.
  - exists ops. eauto.
Qed.

Lemma emits_idx {A} (l : list A) (i : nat) : emits (idx l i).
Proof. unfold idx. destruct (l !! i); [apply emits_ret | apply emits_raise]. Qed.

Lemma emits_pyseq (v : PyVal) : emits (pyseq v).
Proof. destruct v; [apply emits_raise | apply emits_ret]. Qed.

Ltac emits_step :=
  match goal with
  | |- emits (ret _) => apply emits_ret
  | |- emits (raise _) => apply emits_raise
  | |- emits (turtle _) => apply emits_turtle
  | |- emits (modify (emit _)) => apply emits_emit
  | |- emits (idx _ _) => apply emits_idx
  | |- emits (pyseq _) => apply emits_pyseq
  | |- emits (bind _ _) => apply emits_bind; [| intros ?]
  | |- emits (if ?b then _ else _) => destruct b
  | |- emits (match ?x with _ => _ end) => destruct x
  | H : _ |- emits _ => apply H
  end.

Lemma plot_points_emits (draw_speed : Z) (scale_x : Q) (x : nat) (pts : list PyVal) :
  emits (plot_points draw_speed scale_x x pts).
Proof.
  revert x. induction pts as [|y rest IH]; intros x; simpl.
  - apply emits_ret.
  - repeat emits_step.
Qed.

Lemma plot_curves_emits (n : nat) (colors : list string) (draw_speed : Z)
    (scale_x : Q) (ci : nat) (gs : list PyVal) :
  emits (plot_curves n colors draw_speed scale_x ci gs).
Proof.
  pose proof plot_points_emits.
  revert ci. induction gs as [|g rest IH]; intros ci; simpl.
  - apply emits_ret.
  - repeat emits_step.
Qed.

Lemma plot_table_emits (gamma : list PyVal) (colors : list string)
    (draw_speed : Z) (scale_x : Q) :
  emits (plot_table gamma colors draw_speed scale_x).
Proof.
  pose proof plot_curves_emits.
  unfold plot_table, unpack_grouped, pylen. repeat emits_step.
Qed.

(** X8: [do_plot] puts the curves and their options at the end of the
    table history before it draws, and drawing changes nothing but the
    canvas: the entry is there whether [plot_table] returns or raises. *)
Theorem do_plot_records (gamma : list PyVal) (draw_speed : Z) (kw : Kwargs)
    (w : World) :
  exists ops,
    let w' := emit ops (on_plot (set_tables (tables (plot w) ++ [(gamma, kw)])) w) in
    (do_plot gamma draw_speed kw w = Ok tt w'
     \/ exists e, do_plot gamma draw_speed kw w = Raise e w')
    /\ tables (plot w') = tables (plot w) ++ [(gamma, kw)].
Proof.
  unfold do_plot, plot_table_kw. cbv [bind modify].
  destruct (plot_table_emits gamma (default default_colors (kw_colors kw))
              draw_speed (default 1 (kw_scale_x kw))
              (on_plot (set_tables (tables (plot w) ++ [(gamma, kw)])) w))
    as (ops & [([] & ->) | (e & ->)]); exists ops; simpl; eauto.
Qed.


(** ** The polyline of a curve *)

Lemma marks_tracer (pen : Pen) (b : bool) (n : Z) (rest : list TurtleOp) :
  marks pen ((if b then [TTracer n None] else []) ++ rest) = marks pen rest.
Proof. destruct b; reflexivity. Qed.

(** The points of a curve after the first one, with the pen down on
    the point before: a stroke to each, and the pen ends down, in the
    same colour. *)
Lemma plot_points_next (draw_speed : Z) (scale_x : Q) (c : string)
    (ys : list Q) (x : nat) (py : Q) (w : World) :
  (draw_speed =? 0)%Z = false ->
  exists ops at_,
    plot_points draw_speed scale_x (S x) (map Num ys) w = Ok tt (emit ops w)
    /\ forall tail,
        marks (mkPen true (inject_Z (Z.of_nat x) * scale_x, py) c) (ops ++ tail)
        = polyline c scale_x x (py :: ys) ++ marks (mkPen true at_ c) tail.
Proof.
  intros Hds. revert x py w.
  induction ys as [|y rest IH]; intros x py w.
  - exists [], (inject_Z (Z.of_nat x) * scale_x, py). simpl.
    unfold ret. rewrite emit_nil. auto.
  - simpl map. unfold plot_points; fold plot_points.
    cbv [bind]. rewrite Hds.
    replace (S x =? 0)%nat with false by reflexivity.
    cbv [ret turtle modify].
    destruct (Z.of_nat (S x) mod draw_speed =? 0)%Z.
    + destruct (IH (S x) y
                  (emit [TTracer 1 None;
                         TSetposition (inject_Z (Z.of_nat (S x)) * scale_x) y;
                         TTracer 0 None] w)) as (ops & at_ & E & Hm).
      eexists. exists at_. split.
      * rewrite !emit_emit. simpl app. rewrite E. rewrite emit_emit.
        reflexivity.
      * intros tail. simpl app. simpl marks. rewrite Hm. reflexivity.
    + destruct (IH (S x) y
                  (emit [TSetposition (inject_Z (Z.of_nat (S x)) * scale_x) y] w))
        as (ops & at_ & E & Hm).
      eexists. exists at_. split.
      * rewrite E. rewrite emit_emit. reflexivity.
      * intros tail. simpl app. simpl marks. rewrite Hm. reflexivity.
Qed.

(** A whole curve drawn with the pen up at the start. *)
Lemma plot_points_first (draw_speed : Z) (scale_x : Q) (pen : Pen)
    (ys : list Q) (w : World) :
  (draw_speed =? 0)%Z = false ->
  pen_down pen = false ->
  exists ops pen',
    plot_points draw_speed scale_x 0 (map Num ys) w = Ok tt (emit ops w)
    /\ pen_color pen' = pen_color pen
    /\ forall tail,
        marks pen (ops ++ tail)
        = polyline (pen_color pen) scale_x 0 ys ++ marks pen' tail.
Proof.
  intros Hds Hup. destruct ys as [|y rest].
  - exists [], pen. simpl. unfold ret. rewrite emit_nil. auto.
  - destruct (plot_points_next draw_speed scale_x (pen_color pen) rest 0 y
                (emit [TSetposition (inject_Z (Z.of_nat 0) * scale_x) y;
                       TShowturtle; TPendown] w) Hds)
      as (ops & at_ & E & Hm).
    eexists. exists (mkPen true at_ (pen_color pen)). split; [| split].
    + simpl map. unfold plot_points; fold plot_points.
      cbv [bind]. replace (0 =? 0)%nat with true by reflexivity.
      cbv [ret turtle modify]. rewrite !emit_emit. simpl app.
      rewrite E. rewrite emit_emit. reflexivity.
    + reflexivity.
    + intros tail. simpl app. simpl marks. rewrite Hup. simpl app.
      rewrite Hm. reflexivity.
Qed.


(** The last curve of the loop, once its colour is set: the strokes of
    its polyline and nothing else. *)
Lemma plot_curve_last (n : nat) (colors : list string) (draw_speed : Z)
    (scale_x : Q) (ci : nat) (ys : list Q) (pre : list TurtleOp) (c : string)
    (w : World) :
  (draw_speed =? 0)%Z = false ->
  (if (n =? length colors)%nat
   then do c0 <- idx colors ci; turtle (TColor c0)
   else if (length colors =? 1)%nat
        then do c0 <- idx colors 0; turtle (TColor c0)
        else ret tt) (emit plot_prologue w) = Ok tt (emit (plot_prologue ++ pre) w) ->
  marks pen0 (plot_prologue ++ pre) = [] ->
  (forall tail, marks pen0 (plot_prologue ++ pre ++ tail)
                = marks (mkPen false (0, 0) c) tail) ->
  exists ops,
    (modify (emit plot_prologue) ;;
     plot_curves n colors draw_speed scale_x ci [Seq (map Num ys)]) w
    = Ok tt (emit ops w)
    /\ marks pen0 ops = polyline c scale_x 0 ys.
Proof.
  intros Hds Hcol _ Hpen.
  destruct (plot_points_first draw_speed scale_x (mkPen false (0, 0) c) ys
              (emit (plot_prologue ++ pre) w) Hds eq_refl)
    as (ops & pen' & E & _ & Hm).
  exists (plot_prologue ++ pre ++ ops ++ [TPenup; THideturtle; TUpdate]).
  split.
  - unfold plot_curves.
    set (col := if (n =? length colors)%nat then _ else _) in *.
    cbv [bind modify]. rewrite Hcol.
    cbv [pyseq ret]. rewrite E. cbv [turtle modify].
    rewrite !emit_emit. rewrite <- !app_assoc. reflexivity.
  - rewrite Hpen. rewrite Hm. simpl. apply app_nil_r.
Qed.

(** X9: a lone curve of numbers, not of three samples, is drawn as one
    connected polyline through the points [(x * scale_x, y)], in the
    one colour of the colour list if it has exactly one, in black
    otherwise. *)
Theorem plot_table_single_curve (ys : list Q) (colors : list string)
    (draw_speed : Z) (scale_x : Q) (w : World) :
  (draw_speed =? 0)%Z = false ->
  length ys <> 3%nat ->
  exists ops,
    plot_table [Seq (map Num ys)] colors draw_speed scale_x w
    = Ok tt (emit ops w)
    /\ marks pen0 ops
       = polyline (match colors with [c] => c | _ => "black" end) scale_x 0 ys.
Proof.
  intros Hds Hlen.
  unfold plot_table, unpack_grouped, pylen.
  change (length [Seq (map Num ys)] =? 1)%nat with true. cbv iota.
  cbv [bind idx lookup list_lookup pyseq ret].
  rewrite length_map.
  replace (length ys =? 3)%nat with false
    by (symmetry; apply Nat.eqb_neq; exact Hlen).
  replace (collapse_identical [Seq (map Num ys)]) with [Seq (map Num ys)]
    by (unfold collapse_identical; destruct (forallb _ _); reflexivity).
  simpl length.
  destruct colors as [|c [|c' cs]].
  - apply (plot_curve_last 1 [] draw_speed scale_x 0 ys [] "black" w Hds);
      try reflexivity; simpl; rewrite emit_emit; reflexivity.
  - apply (plot_curve_last 1 [c] draw_speed scale_x 0 ys [TColor c] c w Hds);
      try reflexivity; simpl; cbv [bind idx lookup list_lookup ret turtle modify];
      rewrite emit_emit; reflexivity.
  - apply (plot_curve_last 1 (c :: c' :: cs) draw_speed scale_x 0 ys [] "black"
                           w Hds);
      try reflexivity; simpl; rewrite emit_emit; reflexivity.
Qed.

(** X10: two or more curves that are all equal are drawn once, and
    when the colour list does not hold exactly one colour that one
    polyline is black, whatever the colours are. *)
Theorem plot_table_identical_curves (ys : list Q) (rest : list PyVal)
    (colors : list string) (draw_speed : Z) (scale_x : Q) (w : World) :
  (draw_speed =? 0)%Z = false ->
  rest <> [] ->
  forallb (fun x => pyeq x (Seq (map Num ys))) (Seq (map Num ys) :: rest) = true ->
  length colors <> 1%nat ->
  exists ops,
    plot_table (Seq (map Num ys) :: rest) colors draw_speed scale_x w
    = Ok tt (emit ops w)
    /\ marks pen0 ops = polyline "black" scale_x 0 ys.
Proof.
  intros Hds Hrest Hall Hcol.
  unfold plot_table, unpack_grouped.
  replace (length (Seq (map Num ys) :: rest) =? 1)%nat with false
    by (destruct rest; [contradiction | reflexivity]).
  cbv [bind ret].
  unfold collapse_identical. rewrite Hall. simpl length.
  apply (plot_curve_last 1 colors draw_speed scale_x 0 ys [] "black" w Hds);
    try reflexivity.
  replace (1 =? length colors)%nat with false
    by (symmetry; apply Nat.eqb_neq; auto).
  replace (length colors =? 1)%nat with false
    by (symmetry; apply Nat.eqb_neq; auto).
  unfold ret, plot_prologue. simpl. reflexivity.
Qed.


Lemma color_step_one (colors : list string) (w : World) :
  exists pre c,
    (if (1 =? length colors)%nat
     then do c0 <- idx colors 0; turtle (TColor c0)
     else if (length colors =? 1)%nat
          then do c0 <- idx colors 0; turtle (TColor c0)
          else ret tt) (emit plot_prologue w)
    = Ok tt (emit (plot_prologue ++ pre) w)
    /\ forall tail, marks pen0 (plot_prologue ++ pre ++ tail)
                    = marks (mkPen false (0, 0) c) tail.
Proof.
  destruct colors as [|c [|c' cs]].
  - exists [], "black". split; [| reflexivity].
    simpl. unfold ret. reflexivity.
  - exists [TColor c], c. split; [| reflexivity].
    simpl. cbv [bind idx lookup list_lookup ret turtle modify].
    rewrite emit_emit. reflexivity.
  - exists [], "black". split; [| reflexivity].
    simpl. unfold ret. reflexivity.
Qed.

(** X11: with [draw_speed=0] a lone curve of two or more points raises
    [ZeroDivisionError] at its second point: the pen has been put down
    on the first point and no stroke has been drawn. *)
Theorem plot_table_speed_zero (y0 y1 : Q) (rest : list PyVal)
    (colors : list string) (scale_x : Q) (w : World) :
  length rest <> 1%nat ->
  exists ops,
    plot_table [Seq (Num y0 :: Num y1 :: rest)] colors 0 scale_x w
    = Raise ZeroDivisionError (emit ops w)
    /\ marks pen0 ops = []
    /\ In (TSetposition (inject_Z 0 * scale_x) y0) ops
    /\ In TPendown ops.
Proof.
  intros Hlen.
  destruct (color_step_one colors w) as (pre & c & Hcol & Hpen).
  exists (plot_prologue ++ pre ++
          [TSetposition (inject_Z (Z.of_nat 0) * scale_x) y0; TShowturtle; TPendown]).
  split; [| split; [| split]].
  - unfold plot_table, unpack_grouped, pylen.
    change (length [Seq (Num y0 :: Num y1 :: rest)] =? 1)%nat with true.
    cbv iota. cbv [bind idx lookup list_lookup pyseq ret].
    replace (length (Num y0 :: Num y1 :: rest) =? 3)%nat with false
      by (symmetry; apply Nat.eqb_neq; simpl; lia).
    replace (collapse_identical [Seq (Num y0 :: Num y1 :: rest)])
      with [Seq (Num y0 :: Num y1 :: rest)]
      by (unfold collapse_identical; destruct (forallb _ _); reflexivity).
    simpl length. unfold plot_curves.
    set (col := if (1 =? length colors)%nat then _ else _) in *.
    cbv [bind modify]. rewrite Hcol. cbv [pyseq ret].
    cbv [plot_points bind ret turtle modify raise Nat.eqb Z.eqb].
    rewrite !emit_emit. rewrite <- !app_assoc. reflexivity.
  - rewrite Hpen. reflexivity.
  - apply in_or_app. right. apply in_or_app. right. left. reflexivity.
  - apply in_or_app. right. apply in_or_app. right. right. right. left.
    reflexivity.
Qed.


(** ** More on the grid *)

Lemma relines_same (w : World) : relines (lines (plot w)) w = w.
Proof. destruct w as [p s]. destruct p. reflexivity. Qed.

Lemma blind_keeps_lines {A} (m : M World A) (w : World) :
  blind m ->
  match m w with
  | Ok _ w' => lines (plot w') = lines (plot w)
  | Raise _ w' => lines (plot w') = lines (plot w)
  end.
Proof.
  intros Hb. pose proof (Hb (lines (plot w)) w) as H.
  rewrite relines_same in H.
  destruct (m w) as [a w' | e w']; simpl in H; inversion H as [Hw];
    rewrite Hw at 1; reflexivity.
Qed.

(** X12: [do_clear] stores the lines it is given and [draw_grid] works
    on copies: whatever labels the grid passes drop, and whether the
    drawing returns or raises, [self.lines] is the list that was
    passed. *)
Theorem do_clear_keeps_lines (ls : list GridLine) (w : World) :
  match do_clear ls w with
  | Ok _ w' => lines (plot w') = Some ls
  | Raise _ w' => lines (plot w') = Some ls
  end.
Proof.
  unfold do_clear, draw_grid. cbv [bind turtle modify get].
  set (w1 := emit grid_frame _).
  change (lines (plot w1)) with (Some ls).
  pose proof (blind_keeps_lines (draw_grid_lines ls) w1
                                (draw_grid_lines_blind ls)) as H.
  destruct (draw_grid_lines ls w1); exact H.
Qed.

Lemma draw_line_outside (L : GridLine) (w : World) (z0 z1 z2 z3 : Q) :
  zoom_area (plot w) = [z0; z1; z2; z3] ->
  pos L < sel (default false (horizontal L)) (z0, z1)
  \/ sel (default false (horizontal L)) (z2, z3) < pos L ->
  draw_line L w = Ok tt w.
Proof.
  intros Ez Hout. unfold draw_line. cbv [bind get]. rewrite Ez.
  destruct (default false (horizontal L));
    cbv [idx lookup list_lookup Nat.b2n Nat.add ret]; simpl sel in Hout.
  - destruct (Qltb (pos L) z1) eqn:E1; [reflexivity |].
    destruct (Qltb z3 (pos L)) eqn:E2; [reflexivity |].
    apply Qltb_false in E1, E2. exfalso. lra.
  - destruct (Qltb (pos L) z0) eqn:E1; [reflexivity |].
    destruct (Qltb z2 (pos L)) eqn:E2; [reflexivity |].
    apply Qltb_false in E1, E2. exfalso. lra.
Qed.

(** X13: a grid line whose position is outside the zoom rectangle on
    its own axis goes through the margin loop without changing the
    margin and comes out with no label to draw, and [draw_line] makes
    no turtle call for it, labelled or not. *)
Theorem line_outside_zoom (pad msc : Q * Q) (L : GridLine) (m : list Q)
    (w : World) (z0 z1 z2 z3 : Q) :
  zoom_area (plot w) = [z0; z1; z2; z3] ->
  pos L < sel (default false (horizontal L)) (z0, z1)
  \/ sel (default false (horizontal L)) (z2, z3) < pos L ->
  (exists L', margin_line pad msc L m w = Ok (L', m) w
              /\ truthy (label L') = false
              /\ pos L' = pos L /\ horizontal L' = horizontal L)
  /\ draw_line L w = Ok tt w
  /\ draw_line (drop_label L) w = Ok tt w.
Proof.
  intros Ez Hout. split; [| split].
  - exact (margin_line_outside pad msc L m w z0 z1 z2 z3 Ez Hout).
  - exact (draw_line_outside L w z0 z1 z2 z3 Ez Hout).
  - exact (draw_line_outside (drop_label L) w z0 z1 z2 z3 Ez Hout).
Qed.


(** ** Label size and label position *)

Lemma count_nl_nonneg (s : string) : (0 <= count_nl s)%Z.
Proof.
  induction s as [|c r IH]; simpl; [lia |].
  destruct (Ascii.eqb c newline); lia.
Qed.

Lemma split_nl_count (s : string) :
  Z.of_nat (length (split_nl s)) = (count_nl s + 1)%Z.
Proof.
  induction s as [|c r IH]; simpl; [reflexivity |].
  pose proof (count_nl_nonneg r) as Hr.
  destruct (Ascii.eqb c newline).
  - simpl length. rewrite Nat2Z.inj_succ, IH. lia.
  - destruct (split_nl r) as [|x xs]; simpl in *; lia.
Qed.

Lemma fold_lines_count (f : string -> Z) (l : list string) (a n : Z) :
  snd (fold_left (fun (acc : Z * Z) line =>
                    (Z.max (fst acc) (f line), (snd acc + 1)%Z)) l (a, n))
  = (n + Z.of_nat (length l))%Z.
Proof.
  revert a n. induction l as [|x r IH]; intros a n; simpl fold_left.
  - simpl. lia.
  - rewrite IH. simpl length. simpl fst. simpl snd. lia.
Qed.

(** ** The second loop always returns *)

Lemma sel_put_ne {A} (h h' : bool) (x : A) (p : A * A) :
  h <> h' -> sel h (put h' x p) = sel h p.
Proof. destruct h, h'; intros H; try reflexivity; contradiction. Qed.

Lemma ov_inv_weaken (i : nat) (st : Overlap) : ov_inv i st -> ov_inv (S i) st.
Proof.
  intros H h. specialize (H h). destruct (sel h (ov_last st)); [| exact H].
  destruct H as (Hj & Hl). split; [lia | exact Hl].
Qed.

Lemma label_dropped_insert (ls : list GridLine) (i : nat) (ln : GridLine) :
  ls !! i = Some ln ->
  Forall2 label_dropped ls (<[i := drop_label ln]> ls).
Proof.
  intros Hl. rewrite <- (list_insert_id ls i ln Hl) at 1.
  apply Forall2_insert.
  - apply Forall_Forall2_diag. apply Forall_forall. intros x _. left.
    reflexivity.
  - right. reflexivity.
Qed.

Lemma label_dropped_refl (ls : list GridLine) : Forall2 label_dropped ls ls.
Proof.
  apply Forall_Forall2_diag. apply Forall_forall. intros x _. left. reflexivity.
Qed.

(** One round of the second loop: it returns, keeps the invariant,
    and changes the lines only by deleting labels. *)
Lemma overlap_line_inv (i : nat) (st : Overlap) (w : World) :
  ov_inv i st ->
  (i < length (ov_lines st))%nat ->
  ~ xscale (screen w) == 0 -> ~ yscale (screen w) == 0 ->
  exists st',
    overlap_line i st w = Ok st' w
    /\ ov_inv (S i) st'
    /\ Forall2 label_dropped (ov_lines st) (ov_lines st').
Proof.
  intros Hinv Hi Hx Hy.
  destruct (lookup_lt_is_Some_2 _ _ Hi) as (ln & Hl).
  destruct (truthy (label ln)) eqn:Ht.
  2:{ exists st. rewrite (overlap_line_skip i st w ln Hl Ht).
      split; [reflexivity |]. split; [apply ov_inv_weaken; exact Hinv |].
      apply label_dropped_refl. }
  destruct (label_size_ok (default "" (label ln)) w Hx Hy) as (sz & Hs).
  rewrite (overlap_line_eval i st w ln sz Hl Ht Hs). cbv zeta.
  set (h0 := default false (horizontal ln)).
  set (pad := sel h0 sz * (6 # 10)).
  assert (Hkept : forall ls,
             length ls = length (ov_lines st) ->
             ls !! i = Some ln ->
             (forall h j, h <> h0 -> sel h (ov_last st) = Some j ->
                          ls !! j = ov_lines st !! j) ->
             ov_inv (S i) (mkOverlap ls (put h0 (Some i) (ov_last st))
                                     (put h0 (Fin (pos ln + pad)) (ov_last_pos st)))).
  { intros ls Hlen Hli Hoth h. simpl.
    destruct (Bool.bool_dec h h0) as [-> | Hne].
    - rewrite sel_put. split; [lia |]. exists ln.
      split; [exact Hli |]. split; [apply truthy_label; exact Ht | reflexivity].
    - rewrite !sel_put_ne by exact Hne.
      specialize (Hinv h).
      destruct (sel h (ov_last st)) as [j |] eqn:Ej; [| exact Hinv].
      destruct Hinv as (Hj & ln' & Hl' & Hlab & Hh).
      split; [lia |]. exists ln'. rewrite (Hoth h j Hne Ej). auto. }
  destruct (lt_ext (pos ln - pad) (sel h0 (ov_last_pos st))) eqn:Elt.
  2:{ eexists. split; [reflexivity |]. split; [| apply label_dropped_refl].
      apply Hkept; auto. }
  pose proof (Hinv h0) as Hh0.
  destruct (sel h0 (ov_last st)) as [j |] eqn:Ej.
  2:{ rewrite Hh0 in Elt. discriminate Elt. }
  destruct Hh0 as (Hj & lastln & Hlj & (l & Hlab) & Hhj).
  rewrite Hlj.
  destruct (prio ln <=? prio lastln)%Z.
  - eexists. split; [reflexivity |].
    split; [| apply label_dropped_insert; exact Hl].
    intros h. simpl. specialize (Hinv h).
    destruct (sel h (ov_last st)) as [j' |]; [| exact Hinv].
    destruct Hinv as (Hj' & ln' & Hl' & Hlab' & Hh').
    split; [lia |]. exists ln'.
    rewrite list_lookup_insert_ne by lia. auto.
  - rewrite Hlab. eexists. split; [reflexivity |].
    split; [| apply label_dropped_insert; exact Hlj].
    apply Hkept.
    + apply length_insert.
    + rewrite list_lookup_insert_ne by lia. exact Hl.
    + intros h j' Hne Ej'.
      apply list_lookup_insert_ne. intros ->.
      specialize (Hinv h). rewrite Ej' in Hinv.
      destruct Hinv as (_ & ln' & Hl' & _ & Hh').
      rewrite Hlj in Hl'. inversion Hl'; subst ln'. congruence.
Qed.


Lemma label_dropped_trans (a b c : GridLine) :
  label_dropped a b -> label_dropped b c -> label_dropped a c.
Proof.
  intros [-> | ->] [-> | ->]; try (left; reflexivity); right; reflexivity.
Qed.

Lemma label_dropped_list_trans (l1 l2 l3 : list GridLine) :
  Forall2 label_dropped l1 l2 -> Forall2 label_dropped l2 l3 ->
  Forall2 label_dropped l1 l3.
Proof.
  intros H. revert l3. induction H as [|a b l1 l2 Hab _ IH]; intros l3 H3.
  - inversion H3. constructor.
  - inversion H3 as [|b' c l2' l3' Hbc Hrest]; subst. constructor.
    + exact (label_dropped_trans a b c Hab Hbc).
    + apply IH. exact Hrest.
Qed.

Lemma overlap_from_inv (n i : nat) (st : Overlap) (w : World) :
  ov_inv i st ->
  (i + n <= length (ov_lines st))%nat ->
  ~ xscale (screen w) == 0 -> ~ yscale (screen w) == 0 ->
  exists st',
    overlap_from n i st w = Ok st' w
    /\ ov_inv (i + n) st'
    /\ Forall2 label_dropped (ov_lines st) (ov_lines st').
Proof.
  intros Hinv Hlen Hx Hy. revert i st Hinv Hlen.
  induction n as [|n IH]; intros i st Hinv Hlen; simpl.
  - exists st. unfold ret. rewrite Nat.add_0_r.
    split; [reflexivity |]. split; [exact Hinv | apply label_dropped_refl].
  - destruct (overlap_line_inv i st w Hinv ltac:(lia) Hx Hy)
      as (st1 & E1 & I1 & D1).
    destruct (IH (S i) st1 I1) as (st2 & E2 & I2 & D2).
    { rewrite <- (Forall2_length _ _ _ D1). lia. }
    exists st2. cbv [bind]. rewrite E1, E2.
    split; [reflexivity |]. split.
    + replace (i + S n)%nat with (S i + n)%nat by lia. exact I2.
    + exact (label_dropped_list_trans _ _ _ D1 D2).
Qed.

(** X15: the second loop of [draw_grid] returns for every list of
    lines ([last[h]] is a labelled line whenever it is looked at), and
    what it returns is the same lines in the same order, each of them
    as it was or with its label deleted and nothing else changed. *)
Theorem overlap_pass_total (ls : list GridLine) (w : World) :
  ~ xscale (screen w) == 0 -> ~ yscale (screen w) == 0 ->
  exists ls',
    overlap_pass ls w = Ok ls' w
    /\ Forall2 label_dropped ls ls'.
Proof.
  intros Hx Hy. unfold overlap_pass.
  destruct (overlap_from_inv (length ls) 0
              (mkOverlap ls (None, None) (NegInf, NegInf)) w)
    as (st' & E & _ & D); try assumption.
  - intros h. destruct h; reflexivity.
  - simpl. lia.
  - exists (ov_lines st'). cbv [bind ret]. rewrite E. auto.
Qed.


(** ** The rounded functions without rounding *)

(** With the identity for [rnd], the functions of [Rounded] are the ones
    on exact rationals. *)
Lemma rounded_exact_do_zoom :
  Rounded.do_zoom (fun x => x) rescale = do_zoom.
Proof. reflexivity. Qed.

Lemma rounded_exact_labels :
  Rounded.label_size (fun x => x) measure linespace = label_size
  /\ Rounded.label_pos (fun x => x) linespace = label_pos.
Proof. split; reflexivity. Qed.

Lemma rounded_exact_loops :
  Rounded.margin_pass (fun x => x) measure linespace = margin_pass
  /\ Rounded.overlap_pass (fun x => x) measure linespace = overlap_pass
  /\ Rounded.draw_lines (fun x => x) linespace = draw_lines.
Proof. repeat split; reflexivity. Qed.

Lemma rounded_exact_draw_grid (w : World) :
  Rounded.draw_grid (fun x => x) measure linespace rescale w = draw_grid w.
Proof.
  unfold Rounded.draw_grid, draw_grid, draw_grid_lines, Rounded.grid_margin.
  change (Rounded.margin_pass (fun x => x) measure linespace) with margin_pass.
  change (Rounded.overlap_pass (fun x => x) measure linespace) with overlap_pass.
  change (Rounded.draw_lines (fun x => x) linespace) with draw_lines.
  change (Rounded.setworldcoordinates (fun x => x) rescale)
    with setworldcoordinates.
  change (@Rounded.pydiv (fun x => x) World) with (@pydiv World).
  cbv [bind modify get ret].
  destruct (lines (plot (emit grid_frame w))); [| reflexivity].
  repeat match goal with
         | |- context [match ?m with Ok _ _ => _ | Raise _ _ => _ end] =>
             lazymatch m with
             | context [match _ with Ok _ _ => _ | Raise _ _ => _ end] => fail
             | _ => destruct m
             end
         end; try reflexivity.
Qed.

(** ** Zooming in floating point *)

Lemma rounded_pydiv_ok {S} (a b : Q) (s : S) :
  ~ b == 0 -> Rounded.pydiv rnd a b s = Ok (rnd (a / b)) s.
Proof.
  intros H. unfold Rounded.pydiv. destruct (Qeq_bool b 0) eqn:E; [| reflexivity].
  apply Qeq_bool_iff in E. contradiction.
Qed.

(** One axis of the rounded [do_zoom]: the new size is the clamped one,
    one end of the new interval is the other end plus or minus that size,
    rounded, and the interval lies in the plot area when rounding keeps
    numbers on their side of the plot area's low end. *)
Lemma rounded_zoom_axis (w : World) (level : Q) (direction : list Q) (i : nat)
    (l h di min_l max_h ms : Q) :
  zoom_area (plot w) !! i = Some l ->
  zoom_area (plot w) !! (i + 2)%nat = Some h ->
  direction !! i = Some di ->
  plot_area (plot w) !! i = Some min_l ->
  plot_area (plot w) !! (i + 2)%nat = Some max_h ->
  min_size (plot w) !! i = Some ms ->
  ~ level == 0 ->
  0 < ms ->
  ms <= rnd (max_h - min_l) ->
  rnd (max_h - min_l) <= max_h - min_l ->
  (forall x, min_l <= x -> min_l <= rnd x) ->
  exists nl nh ns,
    Rounded.zoom_axis rnd level direction i w
    = Ok tt (on_plot (set_scale (rnd (ns / rnd (max_h - min_l))))
               (on_plot (set_zoom_area
                           (<[(i + 2)%nat := nh]> (<[i := nl]> (zoom_area (plot w))))) w))
    /\ ns == clamp (rnd (rnd (h - l) / level)) ms (rnd (max_h - min_l))
    /\ (nh = rnd (nl + ns) \/ (nh = max_h /\ nl = rnd (max_h - ns)))
    /\ min_l <= nl /\ nh <= max_h.
Proof.
  intros Hl Hh Hd Hpl Hph Hms Hlv Hpos Hle Hsz Hlo.
  pose proof (lookup_lt_Some _ _ _ Hl) as Li.
  pose proof (lookup_lt_Some _ _ _ Hh) as Li2.
  set (mx := rnd (max_h - min_l)) in *.
  set (v := rnd (rnd (h - l) / level)).
  pose proof (clamp_steps v ms mx Hle) as Hc. cbv zeta in Hc.
  set (ns := if Qltb mx (if Qltb v ms then ms else v) then mx
             else (if Qltb v ms then ms else v)) in *.
  assert (Hns : ns <= mx).
  { subst ns. destruct (Qltb mx _) eqn:E.
    - lra.
    - apply Qltb_false in E. exact E. }
  set (d := rnd (rnd (di / 2) + rnd (1 # 2))).
  set (nl0 := pymax min_l (rnd (l + rnd (rnd (rnd (h - l) - ns) * d)))).
  assert (Hnl0 : min_l <= nl0).
  { subst nl0. unfold pymax. destruct (Qltb min_l _) eqn:E.
    - apply Qltb_true in E. lra.
    - lra. }
  exists (fst (if Qltb max_h (rnd (nl0 + ns)) then (rnd (max_h - ns), max_h)
               else (nl0, rnd (nl0 + ns)))),
         (snd (if Qltb max_h (rnd (nl0 + ns)) then (rnd (max_h - ns), max_h)
               else (nl0, rnd (nl0 + ns)))),
         ns.
  split.
  - unfold Rounded.zoom_axis, bind, get, modify.
    rewrite (idx_ok _ _ _ _ Hl), (idx_ok _ _ _ _ Hh), (idx_ok _ _ _ _ Hd),
      (idx_ok _ _ _ _ Hpl), (idx_ok _ _ _ _ Hph).
    rewrite (rounded_pydiv_ok _ _ _ Hlv). rewrite (idx_ok _ _ _ _ Hms).
    fold mx. fold v. fold ns. fold d. fold nl0.
    rewrite (upd_ok _ _ _ _ Li).
    rewrite upd_ok by (rewrite length_insert; exact Li2).
    rewrite rounded_pydiv_ok by lra.
    reflexivity.
  - split; [exact Hc |].
    destruct (Qltb max_h (rnd (nl0 + ns))) eqn:E; simpl.
    + split; [right; auto |]. split; [| lra].
      apply Hlo. lra.
    + apply Qltb_false in E. split; [left; reflexivity |]. split; assumption.
Qed.


(** C3 (amended): for [level >= 1], [do_zoom] in floating point works out
    [clamp(size/level, min_size, plot_area_size)] on each axis, stores an
    interval of which one end is the other plus or minus that size,
    rounded, sets the scale to the new height over the plot height, and
    leaves the rectangle inside the plot area.  Rounding is asked to keep
    a number on its side of the plot area's low corner and to give a
    plot size that is not more than the exact one, as it does when the
    plot area's corners and size are floats. *)
Theorem do_zoom_level (w : World) (level dx dy : Q)
    (xl yl xh yh pxl pyl pxh pyh mw mh : Q) :
  zoom_area (plot w) = [xl; yl; xh; yh] ->
  plot_area (plot w) = [pxl; pyl; pxh; pyh] ->
  min_size (plot w) = [mw; mh] ->
  length (margin (plot w)) = 4%nat ->
  0 < mw -> 0 < mh ->
  mw <= rnd (pxh - pxl) -> mh <= rnd (pyh - pyl) ->
  rnd (pxh - pxl) <= pxh - pxl -> rnd (pyh - pyl) <= pyh - pyl ->
  (forall x, pxl <= x -> pxl <= rnd x) ->
  (forall x, pyl <= x -> pyl <= rnd x) ->
  1 <= level ->
  exists w' xl' yl' xh' yh' sx sy,
    Rounded.do_zoom rnd rescale (Some level) [dx; dy] w = Ok tt w'
    /\ zoom_area (plot w') = [xl'; yl'; xh'; yh']
    /\ sx == clamp (rnd (rnd (xh - xl) / level)) mw (rnd (pxh - pxl))
    /\ sy == clamp (rnd (rnd (yh - yl) / level)) mh (rnd (pyh - pyl))
    /\ (xh' = rnd (xl' + sx) \/ (xh' = pxh /\ xl' = rnd (pxh - sx)))
    /\ (yh' = rnd (yl' + sy) \/ (yh' = pyh /\ yl' = rnd (pyh - sy)))
    /\ scale (plot w') = rnd (sy / rnd (pyh - pyl))
    /\ pxl <= xl' /\ xh' <= pxh /\ pyl <= yl' /\ yh' <= pyh.
Proof.
  intros Hz Hp Hms Hm Hmw Hmh Lx0 Ly0 Sx0 Sy0 Rx Ry Hlv.
  destruct (length4 _ Hm) as (m0 & m1 & m2 & m3 & Em).
  assert (Hlv0 : ~ level == 0) by lra.
  set (w0 := on_plot (set_scale 1) w).
  destruct (rounded_zoom_axis w0 level [dx; dy] 0 xl xh dx pxl pxh mw)
    as (nl & nh & ns & Ex & Cx & Sx & Lx & Hx);
    try (subst w0; simpl; rewrite ?Hz, ?Hp, ?Hms; reflexivity);
    try assumption.
  set (w1 := on_plot (set_scale (rnd (ns / rnd (pxh - pxl))))
               (on_plot (set_zoom_area
                  (<[(0 + 2)%nat := nh]> (<[0%nat := nl]> (zoom_area (plot w0))))) w0)) in *.
  assert (Ez1 : zoom_area (plot w1) = [nl; yl; nh; yh]).
  { subst w1 w0. simpl. rewrite Hz. reflexivity. }
  destruct (rounded_zoom_axis w1 level [dx; dy] 1 yl yh dy pyl pyh mh)
    as (nl' & nh' & ns' & Ey & Cy & Sy & Ly & Hy);
    try (rewrite ?Ez1; subst w1 w0; simpl; rewrite ?Hp, ?Hms; reflexivity);
    try assumption.
  unfold Rounded.do_zoom, bind, modify. fold w0. rewrite Ex. rewrite Ey.
  rewrite Ez1.
  unfold Rounded.setworldcoordinates, bind, modify, get, turtle,
    Rounded.turtle_setworldcoordinates; simpl.
  rewrite Em; simpl.
  eexists; exists nl, nl', nh, nh', ns, ns'.
  split; [reflexivity |]. simpl.
  split; [reflexivity |].
  repeat split; assumption.
Qed.

Lemma clamp_bounds (v lo hi : Q) : lo <= hi -> lo <= clamp v lo hi <= hi.
Proof.
  intros H. unfold clamp. split.
  - apply Q.min_glb; [apply Q.le_max_r | exact H].
  - apply Q.le_min_r.
Qed.

(** X2: for every level but 0, every direction and every prior zoom
    rectangle, [do_zoom] in floating point returns with a rectangle that
    lies in the plot area; the size it works out on each axis is between
    the minimum size and the plot size, and the scale it stores is the
    one of the second axis over the plot height. *)
Theorem do_zoom_contained (w : World) (level dx dy : Q)
    (xl yl xh yh pxl pyl pxh pyh mw mh : Q) :
  zoom_area (plot w) = [xl; yl; xh; yh] ->
  plot_area (plot w) = [pxl; pyl; pxh; pyh] ->
  min_size (plot w) = [mw; mh] ->
  length (margin (plot w)) = 4%nat ->
  0 < mw -> 0 < mh ->
  mw <= rnd (pxh - pxl) -> mh <= rnd (pyh - pyl) ->
  rnd (pxh - pxl) <= pxh - pxl -> rnd (pyh - pyl) <= pyh - pyl ->
  (forall x, pxl <= x -> pxl <= rnd x) ->
  (forall x, pyl <= x -> pyl <= rnd x) ->
  ~ level == 0 ->
  exists w' xl' yl' xh' yh' sx sy,
    Rounded.do_zoom rnd rescale (Some level) [dx; dy] w = Ok tt w'
    /\ zoom_area (plot w') = [xl'; yl'; xh'; yh']
    /\ pxl <= xl' /\ xh' <= pxh /\ pyl <= yl' /\ yh' <= pyh
    /\ (xh' = rnd (xl' + sx) \/ xl' = rnd (xh' - sx))
    /\ (yh' = rnd (yl' + sy) \/ yl' = rnd (yh' - sy))
    /\ mw <= sx <= rnd (pxh - pxl)
    /\ mh <= sy <= rnd (pyh - pyl)
    /\ scale (plot w') = rnd (sy / rnd (pyh - pyl)).
Proof.
  intros Hz Hp Hms Hm Hmw Hmh Lx0 Ly0 Sx0 Sy0 Rx Ry Hlv0.
  destruct (length4 _ Hm) as (m0 & m1 & m2 & m3 & Em).
  set (w0 := on_plot (set_scale 1) w).
  destruct (rounded_zoom_axis w0 level [dx; dy] 0 xl xh dx pxl pxh mw)
    as (nl & nh & ns & Ex & Cx & Sx & Lx & Hx);
    try (subst w0; simpl; rewrite ?Hz, ?Hp, ?Hms; reflexivity);
    try assumption.
  set (w1 := on_plot (set_scale (rnd (ns / rnd (pxh - pxl))))
               (on_plot (set_zoom_area
                  (<[(0 + 2)%nat := nh]> (<[0%nat := nl]> (zoom_area (plot w0))))) w0)) in *.
  assert (Ez1 : zoom_area (plot w1) = [nl; yl; nh; yh]).
  { subst w1 w0. simpl. rewrite Hz. reflexivity. }
  destruct (rounded_zoom_axis w1 level [dx; dy] 1 yl yh dy pyl pyh mh)
    as (nl' & nh' & ns' & Ey & Cy & Sy & Ly & Hy);
    try (rewrite ?Ez1; subst w1 w0; simpl; rewrite ?Hp, ?Hms; reflexivity);
    try assumption.
  unfold Rounded.do_zoom, bind, modify. fold w0. rewrite Ex. rewrite Ey.
  rewrite Ez1.
  unfold Rounded.setworldcoordinates, bind, modify, get, turtle,
    Rounded.turtle_setworldcoordinates; simpl.
  rewrite Em; simpl.
  eexists; exists nl, nl', nh, nh', ns, ns'.
  split; [reflexivity |]. simpl.
  split; [reflexivity |].
  pose proof (clamp_bounds (rnd (rnd (xh - xl) / level)) mw _ Lx0) as Bx.
  pose proof (clamp_bounds (rnd (rnd (yh - yl) / level)) mh _ Ly0) as By.
  rewrite <- Cx in Bx. rewrite <- Cy in By.
  repeat split; try assumption;
    try first [exact (proj1 Bx) | exact (proj2 Bx)
              | exact (proj1 By) | exact (proj2 By)].
  - destruct Sx as [-> | [-> ->]]; [left | right]; reflexivity.
  - destruct Sy as [-> | [-> ->]]; [left | right]; reflexivity.
Qed.


(** ** Label size and label position in floating point *)

(** X14: [label_size] and [label_pos] work with the same number of
    lines, the one counting the pieces of the split and the other the
    newlines: for [n] lines [label_size] has the height
    [linespace * n / yscale], rounded once, and [label_pos] places the
    label by [n * (linespace / yscale)], rounded twice. *)
Theorem label_pos_height (p : Q) (lbl : string) (h : bool) (w : World) :
  ~ xscale (screen w) == 0 ->
  ~ yscale (screen w) == 0 ->
  let n := (count_nl lbl + 1)%Z in
  let space := linespace (font (plot w)) in
  let xs := xscale (screen w) in
  let ys := yscale (screen w) in
  let height := rnd (inject_Z n * rnd (inject_Z space / ys)) in
  exists width,
    Rounded.label_size rnd measure linespace lbl w
    = Ok (rnd (inject_Z width / xs), rnd (inject_Z (space * n) / ys)) w
    /\ Rounded.label_pos rnd linespace p lbl h w
       = Ok (if h then rnd (-8 / xs) else p,
             if h then rnd (p - rnd (rnd (1 # 2) * height))
             else rnd (- height - rnd (6 / ys))) w.
Proof.
  intros Hx Hy n space xs ys height.
  unfold Rounded.label_size, Rounded.label_pos. cbv [bind get].
  rewrite !rounded_pydiv_ok by assumption. cbv [ret].
  rewrite fold_lines_count, Z.add_0_l, split_nl_count.
  eexists. split; [reflexivity |].
  destruct h; rewrite !rounded_pydiv_ok by assumption; reflexivity.
Qed.

(** ** The grid in floating point: every step returns *)













(** ** The second loop in floating point *)















(** ** [draw_grid] in floating point, loop by loop *)






End Renderer.

(** * Examples *)

(** C8 on a fresh instance. *)
Lemma do_zoom_reset_fresh :
  exists w', do_zoom demo_rescale None [0; 0] (init demo_screen) = Ok tt w'
             /\ zoom_area (plot w') = plot_area (plot (init demo_screen))
             /\ scale (plot w') = 1
             /\ plot_area (plot w') = plot_area (plot (init demo_screen)).
Proof.
  apply (do_zoom_reset demo_rescale (init demo_screen) [0; 0]); reflexivity.
Defined.

(** C2: on an instance whose run loop has ended. *)
Lemma enqueue_closed_world :
  enqueue [CIdle] demo_cmd closed_world = Raise PlotClosed closed_world.
Proof.
  apply (enqueue_closed closed_world [CIdle] demo_cmd). reflexivity.
Defined.

(** C2 as stated fails: [close()] on a fresh instance only puts the
    close command on the queue and leaves the closed flag unset; once
    [run] has taken the close command, a later [enqueue] puts its
    command on the queue and returns, and while the close command is
    still queued it keeps retrying without raising. *)
Lemma close_then_enqueue_delivers :
  close [] (init demo_screen)
  = Ok tt (on_plot (set_queue [CmdClose]) (init demo_screen))
  /\ closed (plot (on_plot (set_queue [CmdClose]) (init demo_screen))) = false
  /\ enqueue [CGet] demo_cmd (on_plot (set_queue [CmdClose]) (init demo_screen))
     = Ok (Some tt) (on_plot (set_queue [demo_cmd]) (init demo_screen))
  /\ enqueue [CIdle; CIdle; CIdle] demo_cmd
             (on_plot (set_queue [CmdClose]) (init demo_screen))
     = Ok None (on_plot (set_queue [CmdClose]) (init demo_screen)).
Proof.
  repeat split; reflexivity.
Qed.

(** C9 on a fresh instance: one empty poll, then the close command. *)
Lemma run_close_first_fresh :
  run demo_measure demo_linespace demo_rescale demo_mainloop
      [None; Some CmdClose] (init demo_screen)
  = Ok (Some tt) (on_plot (set_closed true) (init demo_screen))
  /\ closed (plot (on_plot (set_closed true) (init demo_screen))) = true
  /\ screen (on_plot (set_closed true) (init demo_screen))
     = screen (init demo_screen).
Proof.
  apply (run_close_first demo_measure demo_linespace demo_rescale demo_mainloop
                         (init demo_screen) (init demo_screen)
                         [None; Some CmdClose]); reflexivity.
Defined.



(** X1 on a fresh instance. *)
Lemma do_zoom_level_zero_fresh :
  do_zoom demo_rescale (Some 0) [0; 0] (init demo_screen)
  = Raise ZeroDivisionError (on_plot (set_scale 1) (init demo_screen)).
Proof.
  apply (do_zoom_level_zero demo_rescale (init demo_screen) 0 0 0
                            0 0 1023 1023 0 0 1023 1023); reflexivity.
Defined.


(** X7 on a fresh instance whose first command is a zoom. *)
Lemma run_teardown_fresh :
  exists w2,
    run demo_measure demo_linespace demo_rescale demo_mainloop
        [Some demo_cmd] (init demo_screen)
    = Ok (Some tt) (emit [TBye] (on_plot (set_closed true) w2))
    \/ exists e, is_shutdown e = false
                 /\ run demo_measure demo_linespace demo_rescale demo_mainloop
                        [Some demo_cmd] (init demo_screen)
                    = Raise e (emit [TBye] (on_plot (set_closed true) w2)).
Proof.
  apply (run_teardown demo_measure demo_linespace demo_rescale demo_mainloop
                      [Some demo_cmd] (init demo_screen) (init demo_screen)
                      demo_cmd); reflexivity.
Defined.

(** X9 on a curve of two samples, in red. *)
Lemma plot_table_single_curve_red :
  exists ops,
    plot_table [Seq (map Num two_samples)] ["red"] 16 1 (init demo_screen)
    = Ok tt (emit ops (init demo_screen))
    /\ marks pen0 ops = polyline "red" 1 0 two_samples.
Proof.
  apply (plot_table_single_curve two_samples ["red"] 16 1 (init demo_screen));
    [reflexivity | discriminate].
Defined.

(** X10 on three equal curves and the three default colours. *)
Lemma plot_table_identical_curves_rgb :
  exists ops,
    plot_table (Seq (map Num two_samples)
                :: [Seq (map Num two_samples); Seq (map Num two_samples)])
               default_colors 16 1 (init demo_screen)
    = Ok tt (emit ops (init demo_screen))
    /\ marks pen0 ops = polyline "black" 1 0 two_samples.
Proof.
  apply (plot_table_identical_curves two_samples
           [Seq (map Num two_samples); Seq (map Num two_samples)]
           default_colors 16 1 (init demo_screen));
    [reflexivity | discriminate | reflexivity | discriminate].
Defined.

(** X11 on a curve of two samples. *)
Lemma plot_table_speed_zero_two :
  exists ops,
    plot_table [Seq [Num 1; Num 2]] default_colors 0 1 (init demo_screen)
    = Raise ZeroDivisionError (emit ops (init demo_screen))
    /\ marks pen0 ops = []
    /\ In (TSetposition (inject_Z 0 * 1) 1) ops
    /\ In TPendown ops.
Proof.
  apply (plot_table_speed_zero 1 2 [] default_colors 1 (init demo_screen)).
  discriminate.
Defined.

(** X13 on a line at 2000 in the fresh zoom rectangle. *)
Lemma line_outside_zoom_far :
  (exists L', margin_line demo_measure demo_linespace (4, 4) (1, 1) far_line
                          [-4; -4; 4; 4] (init demo_screen)
              = Ok (L', [-4; -4; 4; 4]) (init demo_screen)
              /\ truthy (label L') = false
              /\ pos L' = pos far_line /\ horizontal L' = horizontal far_line)
  /\ draw_line demo_linespace far_line (init demo_screen)
     = Ok tt (init demo_screen)
  /\ draw_line demo_linespace (drop_label far_line) (init demo_screen)
     = Ok tt (init demo_screen).
Proof.
  apply (line_outside_zoom demo_measure demo_linespace (4, 4) (1, 1) far_line
                           [-4; -4; 4; 4] (init demo_screen) 0 0 1023 1023).
  - reflexivity.
  - right. reflexivity.
Defined.

(** X15 on the lines at 127 and 128. *)
Lemma overlap_pass_total_127_128 :
  exists ls',
    overlap_pass demo_measure demo_linespace [line127; line128] (init demo_screen)
    = Ok ls' (init demo_screen)
    /\ Forall2 label_dropped [line127; line128] ls'.
Proof.
  apply (overlap_pass_total demo_measure demo_linespace [line127; line128]
                            (init demo_screen));
    simpl; intros H; discriminate H.
Defined.

(** ** Binary64 rounding *)

Lemma pow2_pos (k : Z) : 0 < pow2 k.
Proof. unfold pow2. apply Qpower_0_lt. reflexivity. Qed.

Lemma rne_nonneg (x : Q) : 0 <= x -> (0 <= rne x)%Z.
Proof.
  intros H. unfold rne.
  assert (Hf : (0 <= Qfloor x)%Z).
  { change 0%Z with (Qfloor 0). apply Qfloor_resp_le. exact H. }
  destruct (Qcompare _ _); [destruct (Z.even _) | |]; lia.
Qed.

(** Rounding keeps a number that is not negative from becoming
    negative. *)
Lemma round64_nonneg (x : Q) : 0 <= x -> 0 <= round64 x.
Proof.
  intros H. unfold round64.
  destruct (Qcompare_spec x 0) as [E | E | E].
  - apply Qle_refl.
  - exfalso. apply (Qlt_not_le _ _ E H).
  - unfold round64_pos.
    set (k := Z.max (ilog2 x - 52) (-1074)).
    apply Qmult_le_0_compat.
    + change 0 with (inject_Z 0). rewrite <- Zle_Qle. apply rne_nonneg.
      apply Qle_shift_div_l; [apply pow2_pos |].
      rewrite Qmult_0_l. exact H.
    + apply Qlt_le_weak, pow2_pos.
Qed.

(** C3 (amended) on a fresh instance in binary64: [zoom(10, (0, 0))]. *)
Lemma do_zoom_level_fresh :
  exists w' xl' yl' xh' yh' sx sy,
    Rounded.do_zoom round64 canvas_rescale (Some 10) [0; 0] (init demo_screen)
    = Ok tt w'
    /\ zoom_area (plot w') = [xl'; yl'; xh'; yh']
    /\ sx == clamp (round64 (round64 (1023 - 0) / 10)) 2 (round64 (1023 - 0))
    /\ sy == clamp (round64 (round64 (1023 - 0) / 10)) 8 (round64 (1023 - 0))
    /\ (xh' = round64 (xl' + sx) \/ (xh' = 1023 /\ xl' = round64 (1023 - sx)))
    /\ (yh' = round64 (yl' + sy) \/ (yh' = 1023 /\ yl' = round64 (1023 - sy)))
    /\ scale (plot w') = round64 (sy / round64 (1023 - 0))
    /\ 0 <= xl' /\ xh' <= 1023 /\ 0 <= yl' /\ yh' <= 1023.
Proof.
  apply (do_zoom_level round64 canvas_rescale (init demo_screen) 10 0 0
                       0 0 1023 1023 0 0 1023 1023 2 8);
    try reflexivity; try exact round64_nonneg;
    try (vm_compute; discriminate).
Defined.

(** C3 as stated fails in binary64.  After [zoom(10, (0, 0))] on a fresh
    instance the zoom rectangle runs from 460.35000000000002 to
    562.64999999999998 on both axes: its size, 102.29999999999995 as a
    float, is not [clamp(1023/10, 2, 1023)], which is 102.3, and neither
    is the exact difference of its ends.  After [zoom(1000, (-0.997, 0))]
    the rectangle is 1.9999999999999998 wide, less than the minimum
    size 2. *)
Lemma zoom_size_not_clamped :
  (exists w' xl' yl' xh' yh',
     Rounded.do_zoom round64 canvas_rescale (Some 10) [0; 0] (init demo_screen)
     = Ok tt w'
     /\ zoom_area (plot w') = [xl'; yl'; xh'; yh']
     /\ xl' == 8098562845546906 # 17592186044416
     /\ xh' == 4949121738945331 # 8796093022208
     /\ clamp (round64 (round64 (1023 - 0) / 10)) 2 (round64 (1023 - 0))
        == 7198722529375027 # 70368744177664
     /\ round64 (xh' - xl') == 7198722529375024 # 70368744177664
     /\ ~ round64 (xh' - xl')
          == clamp (round64 (round64 (1023 - 0) / 10)) 2 (round64 (1023 - 0))
     /\ ~ xh' - xl'
          == clamp (round64 (round64 (1023 - 0) / 10)) 2 (round64 (1023 - 0))
     /\ ~ xh' - xl' == clamp ((1023 - 0) / 10) 2 (1023 - 0))
  /\ (exists w' xl' yl' xh' yh',
        Rounded.do_zoom round64 canvas_rescale (Some 1000)
                        [round64 (-997 # 1000); 0] (init demo_screen)
        = Ok tt w'
        /\ zoom_area (plot w') = [xl'; yl'; xh'; yh']
        /\ clamp (round64 (round64 (1023 - 0) / 1000)) 2 (round64 (1023 - 0)) == 2
        /\ round64 (xh' - xl') == 9007199254740991 # 4503599627370496
        /\ xh' - xl' < 2
        /\ round64 (xh' - xl') < 2).
Proof.
  split.
  - eexists. eexists. eexists. eexists. eexists.
    split; [vm_compute; reflexivity |].
    split; [reflexivity |].
    repeat split; try (vm_compute; reflexivity); vm_compute; discriminate.
  - eexists. eexists. eexists. eexists. eexists.
    split; [vm_compute; reflexivity |].
    split; [reflexivity |].
    repeat split; vm_compute; reflexivity.
Qed.

(** X2 on a fresh instance in binary64: a negative level and a direction
    outside [-1, 1]. *)
Lemma do_zoom_contained_fresh :
  exists w' xl' yl' xh' yh' sx sy,
    Rounded.do_zoom round64 canvas_rescale (Some (-3)) [5; 7] (init demo_screen)
    = Ok tt w'
    /\ zoom_area (plot w') = [xl'; yl'; xh'; yh']
    /\ 0 <= xl' /\ xh' <= 1023 /\ 0 <= yl' /\ yh' <= 1023
    /\ (xh' = round64 (xl' + sx) \/ xl' = round64 (xh' - sx))
    /\ (yh' = round64 (yl' + sy) \/ yl' = round64 (yh' - sy))
    /\ 2 <= sx <= round64 (1023 - 0)
    /\ 8 <= sy <= round64 (1023 - 0)
    /\ scale (plot w') = round64 (sy / round64 (1023 - 0)).
Proof.
  apply (do_zoom_contained round64 canvas_rescale (init demo_screen) (-3) 5 7
                           0 0 1023 1023 0 0 1023 1023 2 8);
    try reflexivity; try exact round64_nonneg;
    try (vm_compute; discriminate).
Defined.

(** X14 on the two-line label of the green line, taken as the label of
    a horizontal line at 128, in binary64. *)
Lemma label_pos_height_green :
  exists width,
    Rounded.label_size round64 demo_measure demo_linespace
                       (default "" (label green_line)) (init demo_screen)
    = Ok (round64 (inject_Z width / 1), round64 (inject_Z (15 * 2) / 1))
         (init demo_screen)
    /\ Rounded.label_pos round64 demo_linespace 128
                         (default "" (label green_line)) true (init demo_screen)
       = Ok (round64 (-8 / 1),
             round64 (128 - round64 (round64 (1 # 2)
                                     * round64 (inject_Z 2 * round64 (inject_Z 15 / 1)))))
            (init demo_screen).
Proof.
  apply (label_pos_height round64 demo_measure demo_linespace 128
           (default "" (label green_line)) true (init demo_screen));
    simpl; intros H; discriminate H.
Defined.






